(** * radarmodel: the point-target adjoint kernels of [libpoint_adjoint.pyx]

    A shallow embedding of [direct_sum] / [DirectSumCython] and of
    [codefreq] / [CodeFreqCython], and the properties of the support-window
    arithmetic and of the two kernels.

    Conventions of the embedding.
    - [Py_ssize_t] values are integers of [Z].  The kernels are compiled with
      [cdivision(True)], so [//] is C division, which truncates toward zero:
      it is [Z.quot] (written [÷]), not the flooring [Z.div].  Signed overflow
      is undefined in C and array extents are bounded by the address space;
      no wrap-around is modelled, and an allocation of non-negative extents
      succeeds.  The statements on which exception a call raises carry the
      hypothesis [exact_extents], under which no integer of the kernels
      leaves [Py_ssize_t] and no allocation is refused for its size.
    - The fused types [stype] and [xytype] are two carrier types [S] and [C]
      with the arithmetic the kernels use; nothing is assumed about that
      arithmetic until the section of algebraic laws.
    - The kernels are compiled with [boundscheck(False)] and
      [wraparound(False)]: an index outside an extent is not checked and the
      access is undefined.  Such an access yields [Err OutOfBounds], which
      ends the embedded run: it marks the undefined behaviour and is no
      error that the call reports (the compiled code goes on from there, and
      may well return an array).
    - Exceptions raised by the runtime (a negative dimension, a zero slice
      step, differing extents in a slice assignment) yield [Err ValueError]. *)

From Stdlib Require Import ZArith Lia Ring Bool.
From stdpp Require Import base list list_numbers.

Local Open Scope Z_scope.

(** ** Outcomes of a call *)

Inductive fault : Type :=
| ValueError
| OutOfBounds.

Inductive res (A : Type) : Type :=
| Ok (a : A)
| Err (e : fault).

Arguments Ok {A} a.
Arguments Err {A} e.

Definition bind {A B : Type} (m : res A) (k : A -> res B) : res B :=
  match m with
  | Ok a => k a
  | Err e => Err e
  end.

Notation "x <- m ;; k" := (bind m (fun x => k))
  (at level 100, m at next level, right associativity).

Definition res_map {A B : Type} (f : A -> B) (m : res A) : res B :=
  x <- m ;; Ok (f x).

Definition res_map2 {A B D : Type} (f : A -> B -> D) (m1 : res A) (m2 : res B) : res D :=
  x1 <- m1 ;; x2 <- m2 ;; Ok (f x1 x2).

(** ** Loops

    [for m in xrange(lo, hi)] and [for p in prange(hi)] run their body on
    the successive indices; the loop state is threaded through.  [for_each]
    runs the body on the indices of a list in the order of the list, which
    also describes the parallel loop under a given schedule of its tasks. *)

Fixpoint for_each {St : Type} (idx : list Z) (body : Z -> St -> res St) (st : St) : res St :=
  match idx with
  | [] => Ok st
  | i :: rest => st' <- body i st ;; for_each rest body st'
  end.

Definition xrange {St : Type} (lo hi : Z) (body : Z -> St -> res St) (st : St) : res St :=
  for_each (seqZ lo (hi - lo)) body st.

Definition prange {St : Type} (hi : Z) (body : Z -> St -> res St) (st : St) : res St :=
  xrange 0 hi body st.

(** ** Typed memoryviews *)

(** A one-dimensional contiguous view, [T[::1]], is the list of its
    elements; its extent is the length of the list. *)

Definition len {A : Type} (v : list A) : Z := Z.of_nat (length v).

Definition get1 {A : Type} (v : list A) (i : Z) : res A :=
  if (0 <=? i) && (i <? len v) then
    match v !! Z.to_nat i with
    | Some a => Ok a
    | None => Err OutOfBounds
    end
  else Err OutOfBounds.

(** A two-dimensional C-contiguous view, [T[:, ::1]]: the two extents and
    the elements in row-major order. *)

Record mview2 (A : Type) : Type := MView2 {
  shape0 : Z;
  shape1 : Z;
  data : list A
}.

Arguments MView2 {A} shape0 shape1 data.
Arguments shape0 {A} m.
Arguments shape1 {A} m.
Arguments data {A} m.

Definition wf {A : Type} (a : mview2 A) : Prop :=
  0 <= shape0 a /\ 0 <= shape1 a /\ len (data a) = shape0 a * shape1 a.

Definition in_extent (i ext : Z) : bool := (0 <=? i) && (i <? ext).

Definition offset {A : Type} (a : mview2 A) (i j : Z) : nat :=
  Z.to_nat (i * shape1 a + j).

Definition get2 {A : Type} (a : mview2 A) (i j : Z) : res A :=
  if in_extent i (shape0 a) && in_extent j (shape1 a) then
    match data a !! offset a i j with
    | Some v => Ok v
    | None => Err OutOfBounds
    end
  else Err OutOfBounds.

Definition set2 {A : Type} (a : mview2 A) (i j : Z) (v : A) : res (mview2 A) :=
  if in_extent i (shape0 a) && in_extent j (shape1 a) then
    if (Z.of_nat (offset a i j) <? len (data a)) then
      Ok (MView2 (shape0 a) (shape1 a) (<[offset a i j := v]> (data a)))
    else Err OutOfBounds
  else Err OutOfBounds.

(** [np.PyArray_EMPTY(2, [d0, d1], ...)]: a fresh array whose elements are
    whatever the memory holds, [uninit k] at offset [k]; a negative
    dimension raises [ValueError]. *)

Definition PyArray_EMPTY {A : Type} (uninit : nat -> A) (d0 d1 : Z) : res (mview2 A) :=
  if (d0 <? 0) || (d1 <? 0) then Err ValueError
  else Ok (MView2 d0 d1 (uninit <$> seq 0 (Z.to_nat (d0 * d1)))).

(** ** The scalar types

    [stype] is the type of the waveform samples (real or complex), [xytype]
    the complex type of the signal and of the image.  [promote] is the
    conversion of an [stype] operand in a product with an [xytype] one,
    [np_conj] is [np.conj] on a sample and [over_sqrt N a] is [a / np.sqrt(N)]. *)

Class Scalars (S C : Type) : Type := {
  czero : C;
  cone : C;
  cadd : C -> C -> C;
  cmul : C -> C -> C;
  csub : C -> C -> C;
  copp : C -> C;
  promote : S -> C;
  np_conj : S -> S;
  over_sqrt : Z -> S -> S
}.

Section Kernels.

Context {S C : Type} `{Sc : Scalars S C}.

(** Uninitialised memory, as [PyArray_EMPTY] returns it. *)
Variable uninit : nat -> C.

(** *** [direct_sum], lines 52-84 *)

Definition direct_sum (s_conj : list S) (dftmat : mview2 C) (R : Z) (y : list C)
  : res (mview2 C) :=
  let L := len s_conj in
  let N := shape0 dftmat in
  let M := shape1 dftmat in
  x <- PyArray_EMPTY uninit N (R * M) ;;
  prange (R * M) (fun p x =>
    let mstart := (p - 1 + R) ÷ R in
    let mstop := Z.min M ((p + L - 1) ÷ R + 1) in
    xrange 0 N (fun n x =>
      xnp <- xrange mstart mstop (fun m xnp =>
               sk <- get1 s_conj (R * m - p) ;;
               d <- get2 dftmat n m ;;
               ym <- get1 y m ;;
               Ok (cadd xnp (cmul (cmul (promote sk) d) ym))) czero ;;
      set2 x n p xnp) x) x.

(** *** [DirectSumCython], lines 86-98: the waveform is conjugated once, the
    returned closure takes the signal. *)

Definition DirectSumCython (s : list S) (dftmat : mview2 C) (R : Z)
  : list C -> res (mview2 C) :=
  let s_conj := np_conj <$> s in
  fun y => direct_sum s_conj dftmat R y.

(** *** The scratch buffers and the transform executor of [codefreq]

    [demodpad] and [x_aligned] are allocated by the caller and shared by all
    the calls of one operator: they are the state that a call receives and
    hands on.  The [pyfftw.FFTW] object is planned on these two buffers;
    [execute] reads the input buffer and gives the new contents of the
    output buffer (source, line 133: input is demodpad, output is
    x_aligned). *)

Record buffers : Type := Buffers {
  demodpad : mview2 C;
  x_aligned : mview2 C
}.

Record FFTW : Type := { execute : mview2 C -> mview2 C }.

(** A strided view of a buffer: its extents and the element at an index. *)

Record view2 : Type := View2 {
  vshape0 : Z;
  vshape1 : Z;
  vat : Z -> Z -> res C
}.

Definition as_view (a : mview2 C) : view2 :=
  View2 (shape0 a) (shape1 a) (get2 a).

(** [v.T] *)
Definition transpose (v : view2) : view2 :=
  View2 (vshape1 v) (vshape0 v) (fun i j => vat v j i).

(** [v[::step, :]]: a zero step raises [ValueError]; the slice starts at 0
    for a positive step and at the last index for a negative one, stops
    before the extent, respectively before -1, and has
    ceil((stop - start) / step) elements, none when that is negative. *)
Definition slice_start (shape step : Z) : Z := if step <? 0 then shape - 1 else 0.

Definition slice_stop (shape step : Z) : Z := if step <? 0 then -1 else shape.

Definition slice_len (shape step : Z) : Z :=
  let d := slice_stop shape step - slice_start shape step in
  let q := d ÷ step in
  let q' := if d - step * q =? 0 then q else q + 1 in
  if q' <? 0 then 0 else q'.

Definition slice_step (v : view2) (step : Z) : res view2 :=
  if step =? 0 then Err ValueError
  else Ok (View2 (slice_len (vshape0 v) step) (vshape1 v)
             (fun i j => vat v (slice_start (vshape0 v) step + i * step) j)).

(** [dst[:, :] = src]: an extent of [src] that differs from that of [dst]
    is broadcast when it is 1 and raises [ValueError] otherwise; then every
    element of [dst] is assigned. *)
Definition extent_ok (s d : Z) : bool := (s =? d) || (s =? 1).

Definition src_index (s d i : Z) : Z := if s =? d then i else 0.

Definition copy_contents (src : view2) (dst : mview2 C) : res (mview2 C) :=
  if extent_ok (vshape0 src) (shape0 dst) && extent_ok (vshape1 src) (shape1 dst) then
    xrange 0 (shape0 dst) (fun n x =>
      xrange 0 (shape1 dst) (fun p x =>
        v <- vat src (src_index (vshape0 src) (shape0 dst) n)
                     (src_index (vshape1 src) (shape1 dst) p) ;;
        set2 x n p v) x) dst
  else Err ValueError.

(** *** [codefreq], lines 103-136

    [demodulate] is the loop of lines 122-131, which multiplies the signal
    by the waveform into the scratch buffer; [codefreq] allocates the output,
    demodulates, runs the transform and copies the strided transpose of its
    output. *)

Definition demodulate (s_conj_over_sqrtN : list S) (demodpad : mview2 C)
    (M R : Z) (y : list C) : res (mview2 C) :=
  let L := len s_conj_over_sqrtN in
  prange (R * M) (fun p demodpad =>
    let mstart := (p - 1 + R) ÷ R in
    let mstop := Z.min M ((p + L - 1) ÷ R + 1) in
    xrange mstart mstop (fun m demodpad =>
      sk <- get1 s_conj_over_sqrtN (R * m - p) ;;
      ym <- get1 y m ;;
      set2 demodpad p m (cmul (promote sk) ym)) demodpad) demodpad.

Definition codefreq (s_conj_over_sqrtN : list S) (bufs : buffers) (fft : FFTW)
    (step N M R : Z) (y : list C) : res (mview2 C * buffers) :=
  x <- PyArray_EMPTY uninit N (R * M) ;;
  demodpad' <- demodulate s_conj_over_sqrtN (demodpad bufs) M R y ;;
  let x_aligned' := execute fft demodpad' in
  src <- slice_step (transpose (as_view x_aligned')) step ;;
  x' <- copy_contents src x ;;
  Ok (x', Buffers demodpad' x_aligned').

(** *** [CodeFreqCython], lines 138-152: the waveform is conjugated and
    divided by sqrt(N) once; the returned closure takes the signal and works
    on the shared buffers. *)

Definition CodeFreqCython (s : list S) (fft : FFTW) (step N M R : Z)
  : list C -> buffers -> res (mview2 C * buffers) :=
  let s_conj_over_sqrtN := (fun a => over_sqrt N (np_conj a)) <$> s in
  fun y bufs => codefreq s_conj_over_sqrtN bufs fft step N M R y.

End Kernels.

Arguments buffers C : clear implicits.
Arguments FFTW C : clear implicits.
Arguments view2 C : clear implicits.

(** ** An exact arithmetic: the Gaussian integers

    Complex numbers with integer parts, for evaluating the kernels.  The
    division by sqrt(N) is exact on the samples that the integer square root
    of [N] divides. *)

Module Gauss.

Definition t : Type := Z * Z.

Definition add (a b : t) : t := (fst a + fst b, snd a + snd b).
Definition mul (a b : t) : t :=
  (fst a * fst b - snd a * snd b, fst a * snd b + snd a * fst b).
Definition opp (a : t) : t := (- fst a, - snd a).
Definition sub (a b : t) : t := add a (opp b).
Definition conj (a : t) : t := (fst a, - snd a).
Definition quot (N : Z) (a : t) : t := (fst a ÷ Z.sqrt N, snd a ÷ Z.sqrt N).

#[export] Instance scalars : Scalars t t := {
  czero := (0, 0);
  cone := (1, 0);
  cadd := add;
  cmul := mul;
  csub := sub;
  copp := opp;
  promote := fun a => a;
  np_conj := conj;
  over_sqrt := quot
}.

(** Fresh memory holding an arbitrary non-zero pattern. *)
Definition junk (k : nat) : t := (Z.of_nat k + 7, -3).

Lemma ring_laws : ring_theory (R := t) czero cone cadd cmul csub copp eq.
Proof.
  constructor; intros; repeat match goal with a : t |- _ => destruct a end;
    unfold czero, cone, cadd, cmul, csub, copp; simpl;
    unfold add, mul, sub, opp, add; simpl; f_equal; lia.
Qed.

End Gauss.


(** * Properties *)

(** ** Outcomes and loops *)

Definition is_ok {A : Type} (m : res A) : Prop := exists a, m = Ok a.

Lemma bind_Ok_inv {A B : Type} (m : res A) (k : A -> res B) (b : B) :
  bind m k = Ok b -> exists a, m = Ok a /\ k a = Ok b.
Proof. destruct m as [a|e]; simpl; [eauto | discriminate]. Qed.

Lemma bind_Err_inv {A B : Type} (m : res A) (k : A -> res B) (e : fault) :
  bind m k = Err e -> m = Err e \/ exists a, m = Ok a /\ k a = Err e.
Proof. destruct m as [a|e']; simpl; [eauto | intros [= ->]; auto]. Qed.

Lemma is_ok_bind {A B : Type} (m : res A) (k : A -> res B) :
  is_ok (bind m k) <-> exists a, m = Ok a /\ is_ok (k a).
Proof.
  split.
  - intros [b Hb]. apply bind_Ok_inv in Hb as (a & Ha & Hk). exists a. split; [done | by exists b].
  - intros (a & -> & Hk). exact Hk.
Qed.

Lemma not_ok_Err {A : Type} (e : fault) : ~ is_ok (@Err A e).
Proof. intros [a Ha]. discriminate. Qed.

Lemma is_ok_Ok {A : Type} (a : A) : is_ok (Ok a).
Proof. by exists a. Qed.

Lemma for_each_ext {St : Type} (l : list Z) (body body' : Z -> St -> res St) (st : St) :
  (forall i st, i ∈ l -> body i st = body' i st) ->
  for_each l body st = for_each l body' st.
Proof.
  revert st. induction l as [|i l IH]; intros st Hb; simpl; [done |].
  rewrite Hb by left. destruct (body' i st) as [st'|e]; simpl; [|done].
  apply IH. intros k st'' Hk. apply Hb. by right.
Qed.

(** A loop whose body keeps an invariant and cannot fault under it runs to
    completion and keeps the invariant. *)
Lemma for_each_total {St : Type} (I : St -> Prop) (l : list Z) (body : Z -> St -> res St) :
  (forall i st, i ∈ l -> I st -> exists st', body i st = Ok st' /\ I st') ->
  forall st, I st -> exists st', for_each l body st = Ok st' /\ I st'.
Proof.
  induction l as [|i l IH]; intros Hb st Hst; simpl; [eauto |].
  destruct (Hb i st) as (st1 & -> & H1); [by left | done |]. simpl.
  apply IH; [|done]. intros k st' Hk. apply Hb. by right.
Qed.

(** ** Memoryviews *)

Lemma get1_Ok {A : Type} (v : list A) (i : Z) (a : A) :
  get1 v i = Ok a <-> 0 <= i < len v /\ v !! Z.to_nat i = Some a.
Proof.
  unfold get1. destruct (Z.leb_spec 0 i), (Z.ltb_spec i (len v)); simpl;
    try (split; [discriminate | lia]).
  destruct (v !! Z.to_nat i) as [a'|] eqn:E.
  - split; [intros [= ->]; split; [lia | done] | intros [_ [= ->]]; done].
  - split; [discriminate | intros [_ ?]; discriminate].
Qed.

Lemma get1_is_ok {A : Type} (v : list A) (i : Z) :
  is_ok (get1 v i) <-> 0 <= i < len v.
Proof.
  split.
  - intros [a Ha]. by apply get1_Ok in Ha as [? _].
  - intros Hi. destruct (lookup_lt_is_Some_2 v (Z.to_nat i)) as [a Ha]; [unfold len in Hi; lia |].
    exists a. apply get1_Ok. done.
Qed.

Lemma get1_Err {A : Type} (v : list A) (i : Z) (e : fault) :
  get1 v i = Err e -> e = OutOfBounds.
Proof.
  unfold get1. destruct (_ && _); [destruct (v !! _) |]; congruence.
Qed.

Lemma in_extent_true (i ext : Z) : in_extent i ext = true <-> 0 <= i < ext.
Proof. unfold in_extent. rewrite andb_true_iff, Z.leb_le, Z.ltb_lt. done. Qed.

Lemma offset_lt {A : Type} (a : mview2 A) (i j : Z) :
  0 <= i < shape0 a -> 0 <= j < shape1 a ->
  Z.of_nat (offset a i j) < shape0 a * shape1 a.
Proof. unfold offset. intros Hi Hj. rewrite Z2Nat.id by nia. nia. Qed.

Lemma offset_inj {A : Type} (a : mview2 A) (i j i' j' : Z) :
  0 <= i -> 0 <= j < shape1 a -> 0 <= i' -> 0 <= j' < shape1 a ->
  offset a i j = offset a i' j' -> i = i' /\ j = j'.
Proof.
  unfold offset. intros Hi Hj Hi' Hj' H.
  apply Z2Nat.inj in H; [|nia|nia].
  assert (i = i') as ->.
  { destruct (Z.lt_trichotomy i i') as [Hlt|[Heq|Hlt]]; [|done|].
    - assert ((i + 1) * shape1 a <= i' * shape1 a) by (apply Z.mul_le_mono_nonneg_r; lia). lia.
    - assert ((i' + 1) * shape1 a <= i * shape1 a) by (apply Z.mul_le_mono_nonneg_r; lia). lia. }
  split; [done | lia].
Qed.

(** Two views of the same extents whose buffers have the same size. *)
Definition same_shape {A : Type} (a b : mview2 A) : Prop :=
  shape0 a = shape0 b /\ shape1 a = shape1 b /\ length (data a) = length (data b).

Lemma same_shape_refl {A : Type} (a : mview2 A) : same_shape a a.
Proof. done. Qed.

Lemma same_shape_sym {A : Type} (a b : mview2 A) : same_shape a b -> same_shape b a.
Proof. intros (? & ? & ?). done. Qed.

Lemma same_shape_trans {A : Type} (a b c : mview2 A) :
  same_shape a b -> same_shape b c -> same_shape a c.
Proof. intros (? & ? & ?) (? & ? & ?). repeat split; congruence. Qed.

Lemma same_shape_wf {A : Type} (a b : mview2 A) : same_shape a b -> wf a -> wf b.
Proof. unfold wf, len. intros (<- & <- & <-). done. Qed.

Lemma set2_Ok {A : Type} (a a' : mview2 A) (i j : Z) (v : A) :
  set2 a i j v = Ok a' <->
  0 <= i < shape0 a /\ 0 <= j < shape1 a /\ Z.of_nat (offset a i j) < len (data a) /\
  a' = MView2 (shape0 a) (shape1 a) (<[offset a i j := v]> (data a)).
Proof.
  unfold set2.
  destruct (in_extent i (shape0 a)) eqn:Ei; simpl.
  2:{ split; [discriminate |]. intros (Hi & _). apply in_extent_true in Hi. congruence. }
  destruct (in_extent j (shape1 a)) eqn:Ej; simpl.
  2:{ split; [discriminate |]. intros (_ & Hj & _). apply in_extent_true in Hj. congruence. }
  apply in_extent_true in Ei, Ej.
  destruct (Z.ltb_spec (Z.of_nat (offset a i j)) (len (data a))).
  - split; [intros [= <-]; done | intros (_ & _ & _ & ->); done].
  - split; [discriminate | intros (_ & _ & ? & _); lia].
Qed.

Lemma set2_is_ok {A : Type} (a : mview2 A) (i j : Z) (v : A) :
  is_ok (set2 a i j v) <->
  0 <= i < shape0 a /\ 0 <= j < shape1 a /\ Z.of_nat (offset a i j) < len (data a).
Proof.
  split.
  - intros [a' Ha]. apply set2_Ok in Ha. tauto.
  - intros (Hi & Hj & Ho). eexists. apply set2_Ok. eauto.
Qed.

Lemma set2_Err {A : Type} (a : mview2 A) (i j : Z) (v : A) (e : fault) :
  set2 a i j v = Err e -> e = OutOfBounds.
Proof. unfold set2. repeat (destruct (_ : bool)); simpl; congruence. Qed.

Lemma set2_same_shape {A : Type} (a a' : mview2 A) (i j : Z) (v : A) :
  set2 a i j v = Ok a' -> same_shape a a'.
Proof.
  intros H. apply set2_Ok in H as (_ & _ & _ & ->).
  repeat split; simpl. by rewrite length_insert.
Qed.

Lemma set2_wf_ok {A : Type} (a : mview2 A) (i j : Z) (v : A) :
  wf a -> 0 <= i < shape0 a -> 0 <= j < shape1 a -> is_ok (set2 a i j v).
Proof.
  intros (_ & _ & Hl) Hi Hj. apply set2_is_ok. repeat split; try lia.
  rewrite Hl. by apply offset_lt.
Qed.

Lemma get2_Ok {A : Type} (a : mview2 A) (i j : Z) (v : A) :
  get2 a i j = Ok v <->
  0 <= i < shape0 a /\ 0 <= j < shape1 a /\ data a !! offset a i j = Some v.
Proof.
  unfold get2.
  destruct (in_extent i (shape0 a)) eqn:Ei; simpl.
  2:{ split; [discriminate |]. intros (Hi & _). apply in_extent_true in Hi. congruence. }
  destruct (in_extent j (shape1 a)) eqn:Ej; simpl.
  2:{ split; [discriminate |]. intros (_ & Hj & _). apply in_extent_true in Hj. congruence. }
  apply in_extent_true in Ei, Ej.
  destruct (data a !! offset a i j) as [v'|].
  - split; [intros [= ->]; done | intros (_ & _ & [= ->]); done].
  - split; [discriminate | intros (_ & _ & ?); discriminate].
Qed.

Lemma get2_Err {A : Type} (a : mview2 A) (i j : Z) (e : fault) :
  get2 a i j = Err e -> e = OutOfBounds.
Proof. unfold get2. destruct (_ && _); [destruct (_ !! _) |]; congruence. Qed.

Lemma get2_wf_ok {A : Type} (a : mview2 A) (i j : Z) :
  wf a -> 0 <= i < shape0 a -> 0 <= j < shape1 a -> is_ok (get2 a i j).
Proof.
  intros (_ & _ & Hl) Hi Hj.
  destruct (lookup_lt_is_Some_2 (data a) (offset a i j)) as [v Hv].
  { pose proof (offset_lt a i j Hi Hj). unfold len in Hl. lia. }
  exists v. apply get2_Ok. done.
Qed.

(** Reading after one write. *)
Lemma get2_set2 {A : Type} (a a' : mview2 A) (i j : Z) (v : A) (i' j' : Z) :
  set2 a i j v = Ok a' ->
  get2 a' i' j' = if (i' =? i) && (j' =? j) then Ok v else get2 a i' j'.
Proof.
  intros H. apply set2_Ok in H as (Hi & Hj & Ho & ->).
  destruct (Z.eqb_spec i' i) as [->|Hne]; simpl.
  - destruct (Z.eqb_spec j' j) as [->|Hne]; simpl.
    + apply get2_Ok. simpl. repeat split; try lia.
      apply list_lookup_insert_eq. unfold len in Ho. lia.
    + unfold get2. simpl.
      destruct (in_extent i (shape0 a) && in_extent j' (shape1 a)) eqn:E; [|done].
      apply andb_true_iff in E as [_ E%in_extent_true].
      change (offset (MView2 (shape0 a) (shape1 a) _) i j') with (offset a i j').
      rewrite list_lookup_insert_ne; [done |].
      intros Heq. apply offset_inj in Heq; lia.
  - unfold get2. simpl.
    destruct (in_extent i' (shape0 a) && in_extent j' (shape1 a)) eqn:E; [|done].
    apply andb_true_iff in E as [E1%in_extent_true E2%in_extent_true].
    change (offset (MView2 (shape0 a) (shape1 a) _) i' j') with (offset a i' j').
    rewrite list_lookup_insert_ne; [done |].
    intros Heq. apply offset_inj in Heq; lia.
Qed.

(** Extensionality: a well-formed view is determined by its extents and its
    elements. *)
Lemma mview2_ext {A : Type} (a b : mview2 A) :
  wf a -> same_shape a b ->
  (forall i j, 0 <= i < shape0 a -> 0 <= j < shape1 a -> get2 a i j = get2 b i j) ->
  a = b.
Proof.
  intros Hwf Hs Hget. pose proof (same_shape_wf _ _ Hs Hwf) as Hwfb.
  destruct Hs as (H0 & H1 & Hlen). destruct Hwf as (Hn0 & Hn1 & Hl).
  destruct a as [a0 a1 da], b as [b0 b1 db]; simpl in *. subst b0 b1. f_equal.
  apply list_eq. intros k.
  destruct (decide (k < length da)%nat) as [Hk|Hk].
  2:{ rewrite !lookup_ge_None_2; [done | lia | lia]. }
  unfold len in Hl.
  assert (0 < a1) as Hpos by nia.
  specialize (Hget (Z.of_nat k / a1) (Z.of_nat k mod a1)).
  pose proof (Z.div_mod (Z.of_nat k) a1 ltac:(lia)) as Hdm.
  pose proof (Z.mod_pos_bound (Z.of_nat k) a1 Hpos) as Hmb.
  assert (0 <= Z.of_nat k / a1 < a0) as Hq.
  { split; [apply Z.div_pos; lia |]. apply Z.div_lt_upper_bound; lia. }
  specialize (Hget Hq Hmb).
  assert (Z.to_nat (Z.of_nat k / a1 * a1 + Z.of_nat k mod a1) = k) as Hoff by lia.
  destruct (lookup_lt_is_Some_2 da k Hk) as [v Hv]. rewrite Hv.
  assert (get2 (MView2 a0 a1 da) (Z.of_nat k / a1) (Z.of_nat k mod a1) = Ok v) as Hga.
  { apply get2_Ok. unfold offset. simpl. rewrite Hoff. done. }
  rewrite Hget in Hga. apply get2_Ok in Hga as (_ & _ & Hgb).
  unfold offset in Hgb. simpl in Hgb. rewrite Hoff in Hgb. done.
Qed.

(** ** Filling cells

    [fills P g x x']: [x'] is [x] with the cells selected by [P] set to the
    values of [g], and nothing else changed. *)

Definition cell (i j : Z) : Z -> Z -> bool := fun i' j' => (i' =? i) && (j' =? j).

Definition fills {A : Type} (P : Z -> Z -> bool) (g : Z -> Z -> A) (x x' : mview2 A) : Prop :=
  same_shape x x' /\
  forall i j, get2 x' i j = if P i j then Ok (g i j) else get2 x i j.

Lemma fills_set2 {A : Type} (g : Z -> Z -> A) (x x' : mview2 A) (i j : Z) :
  set2 x i j (g i j) = Ok x' -> fills (cell i j) g x x'.
Proof.
  intros H. split; [by eapply set2_same_shape |].
  intros i' j'. rewrite (get2_set2 _ _ _ _ _ _ _ H). unfold cell.
  destruct (Z.eqb_spec i' i) as [->|]; [|done].
  destruct (Z.eqb_spec j' j) as [->|]; done.
Qed.

Lemma fills_trans {A : Type} (P Q : Z -> Z -> bool) (g : Z -> Z -> A) (x x1 x2 : mview2 A) :
  fills P g x x1 -> fills Q g x1 x2 -> fills (fun i j => P i j || Q i j) g x x2.
Proof.
  intros [Hs1 H1] [Hs2 H2]. split; [by eapply same_shape_trans |].
  intros i j. rewrite H2, H1. destruct (P i j), (Q i j); done.
Qed.

Lemma fills_ext {A : Type} (P Q : Z -> Z -> bool) (g h : Z -> Z -> A) (x x' : mview2 A) :
  (forall i j, P i j = Q i j) -> (forall i j, P i j = true -> g i j = h i j) ->
  fills P g x x' -> fills Q h x x'.
Proof.
  intros HPQ Hgh [Hs H]. split; [done |]. intros i j. rewrite H, <- HPQ.
  destruct (P i j) eqn:E; [by rewrite Hgh | done].
Qed.

Lemma for_each_fills {A : Type} (Q : Z -> Z -> Z -> bool) (g : Z -> Z -> A)
    (l : list Z) (body : Z -> mview2 A -> res (mview2 A)) :
  (forall k x x', k ∈ l -> body k x = Ok x' -> fills (Q k) g x x') ->
  forall x x', for_each l body x = Ok x' ->
    fills (fun i j => existsb (fun k => Q k i j) l) g x x'.
Proof.
  induction l as [|k l IH]; intros Hb x x'; simpl.
  - intros [= <-]. split; [apply same_shape_refl | done].
  - intros H. apply bind_Ok_inv in H as (x1 & H1 & H2).
    eapply fills_trans.
    + apply Hb; [by left | exact H1].
    + apply IH; [|exact H2]. intros k' a a' Hk'. apply Hb. by right.
Qed.

Lemma existsb_seqZ (f : Z -> bool) (lo n : Z) (k : Z) :
  lo <= k < lo + n -> f k = true -> existsb f (seqZ lo n) = true.
Proof.
  intros Hk Hf. apply existsb_exists. exists k. split; [|done].
  apply list_elem_of_In, elem_of_seqZ. lia.
Qed.

(** ** Loops whose faults depend on the extents only *)

Section ShapeLoops.

Context {A : Type} (body : Z -> mview2 A -> res (mview2 A)).

Hypothesis body_shape : forall k a a', body k a = Ok a' -> same_shape a a'.
Hypothesis body_transfer :
  forall k a b, same_shape a b -> is_ok (body k a) -> is_ok (body k b).

Lemma for_each_ok_iff (l : list Z) (x0 x : mview2 A) :
  same_shape x0 x ->
  is_ok (for_each l body x) <-> forall k, k ∈ l -> is_ok (body k x0).
Proof using body_shape body_transfer.
  revert x. induction l as [|k l IH]; intros x Hx; simpl.
  - split; [intros _ k Hk; by apply elem_of_nil in Hk | intros _; apply is_ok_Ok].
  - rewrite is_ok_bind. split.
    + intros (x1 & H1 & H2) k' Hk'. apply elem_of_cons in Hk' as [->|Hk'].
      * apply (body_transfer _ x); [by apply same_shape_sym | by exists x1].
      * eapply IH; [|exact H2|exact Hk'].
        eapply same_shape_trans; [exact Hx | by eapply body_shape].
    + intros Hall. destruct (body_transfer k x0 x Hx) as [x1 H1]; [apply Hall; by left |].
      exists x1. split; [done |]. apply IH.
      * eapply same_shape_trans; [exact Hx | by eapply body_shape].
      * intros k' Hk'. apply Hall. by right.
Qed.

End ShapeLoops.

Lemma for_each_Err {St : Type} (l : list Z) (body : Z -> St -> res St) (st : St) (e e0 : fault) :
  (forall k a e, body k a = Err e -> e = e0) ->
  for_each l body st = Err e -> e = e0.
Proof.
  intros Hb. revert st. induction l as [|k l IH]; intros st; simpl; [discriminate |].
  intros H. apply bind_Err_inv in H as [H|(st1 & _ & H)]; [by eapply Hb | by eapply IH].
Qed.

(** ** The support window

    [mstart] and [mstop] are the bounds as lines 76-77 and 128-129 compute
    them, with the truncating division of C.  [ceil_div] and [floor_div] are
    the mathematical roundings. *)

Definition mstart (p R : Z) : Z := (p - 1 + R) ÷ R.
Definition mstop (p R L M : Z) : Z := Z.min M ((p + L - 1) ÷ R + 1).

Definition floor_div (a b : Z) : Z := a / b.
Definition ceil_div (a b : Z) : Z := - ((- a) / b).

Lemma ceil_div_spec (a b m : Z) : 0 < b -> ceil_div a b <= m <-> a <= b * m.
Proof.
  intros Hb. unfold ceil_div.
  pose proof (Z.mul_div_le (- a) b Hb). pose proof (Z.mul_succ_div_gt (- a) b Hb).
  split; intros; nia.
Qed.

Lemma floor_div_spec (a b m : Z) : 0 < b -> m <= floor_div a b <-> b * m <= a.
Proof.
  intros Hb. unfold floor_div.
  pose proof (Z.mul_div_le a b Hb). pose proof (Z.mul_succ_div_gt a b Hb).
  split; intros; nia.
Qed.

Lemma mstart_ceil (p R : Z) : 0 <= p -> 1 <= R -> mstart p R = ceil_div p R.
Proof.
  intros Hp HR. unfold mstart. rewrite Z.quot_div_nonneg by lia.
  apply Z.le_antisymm.
  - apply Z.nlt_ge. intros Hlt.
    assert (ceil_div p R <= (p - 1 + R) / R - 1) as Hc by lia.
    apply ceil_div_spec in Hc; [|lia].
    pose proof (Z.mul_div_le (p - 1 + R) R ltac:(lia)). nia.
  - apply ceil_div_spec; [lia |].
    pose proof (Z.mul_succ_div_gt (p - 1 + R) R ltac:(lia)). nia.
Qed.

Lemma mstop_floor (p R L M : Z) :
  0 <= p + L - 1 -> 1 <= R -> mstop p R L M = Z.min M (floor_div (p + L - 1) R + 1).
Proof. intros H HR. unfold mstop, floor_div. by rewrite Z.quot_div_nonneg by lia. Qed.

Lemma mstart_nonneg (p R : Z) : 0 <= p -> 1 <= R -> 0 <= mstart p R.
Proof. intros Hp HR. unfold mstart. apply Z.quot_pos; lia. Qed.

(** The window is the set of the signal indices on which the waveform has
    support, as soon as the numerator of the upper bound is not negative. *)
Lemma window_iff (p R L M m : Z) :
  0 <= p -> 1 <= R -> 0 <= p + L - 1 ->
  mstart p R <= m < mstop p R L M <-> (0 <= m < M /\ 0 <= R * m - p <= L - 1).
Proof.
  intros Hp HR HL. rewrite mstart_ceil, mstop_floor by lia.
  pose proof (ceil_div_spec p R m ltac:(lia)) as Hc.
  pose proof (floor_div_spec (p + L - 1) R m ltac:(lia)) as Hf.
  pose proof (ceil_div_spec p R 0 ltac:(lia)) as Hc0.
  pose proof (proj1 (ceil_div_spec 0 R (ceil_div p R - 1) ltac:(lia))) as Hc1.
  assert (0 <= ceil_div p R).
  { rewrite <- mstart_ceil by lia. by apply mstart_nonneg. }
  clear Hc0 Hc1. lia.
Qed.

(** ** The direct sum, without any law of arithmetic *)

Section DirectSum.

Context {S C : Type} `{Sc : Scalars S C}.

Variable uninit : nat -> C.
Variables (s_conj : list S) (dftmat : mview2 C) (R : Z) (y : list C).

(** The value of an outcome, for stating what a cell holds. *)
Definition val (r : res C) : C :=
  match r with
  | Ok v => v
  | Err _ => czero
  end.

(** The product added at index [m] (line 81). *)
Definition summand (n p m : Z) : res C :=
  sk <- get1 s_conj (R * m - p) ;;
  d <- get2 dftmat n m ;;
  ym <- get1 y m ;;
  Ok (cmul (cmul (promote sk) d) ym).

(** The accumulation of one element (lines 79-81): from zero, the products
    are added one after the other in the order of [m]. *)
Definition accumulate (n p : Z) : res C :=
  xrange (mstart p R) (mstop p R (len s_conj) (shape1 dftmat)) (fun m xnp =>
    sk <- get1 s_conj (R * m - p) ;;
    d <- get2 dftmat n m ;;
    ym <- get1 y m ;;
    Ok (cadd xnp (cmul (cmul (promote sk) d) ym))) czero.

(** One task of the parallel loop: the body of the loop over [p]
    (lines 71-82). *)
Definition direct_sum_task (p : Z) (x : mview2 C) : res (mview2 C) :=
  let mstart := (p - 1 + R) ÷ R in
  let mstop := Z.min (shape1 dftmat) ((p + len s_conj - 1) ÷ R + 1) in
  xrange 0 (shape0 dftmat) (fun n x =>
    xnp <- xrange mstart mstop (fun m xnp =>
             sk <- get1 s_conj (R * m - p) ;;
             d <- get2 dftmat n m ;;
             ym <- get1 y m ;;
             Ok (cadd xnp (cmul (cmul (promote sk) d) ym))) czero ;;
    set2 x n p xnp) x.

(** The kernel with the tasks of the parallel loop run in the order
    [sched]. *)
Definition direct_sum_scheduled (sched : list Z) : res (mview2 C) :=
  x <- PyArray_EMPTY uninit (shape0 dftmat) (R * shape1 dftmat) ;;
  for_each sched direct_sum_task x.

Lemma direct_sum_tasks :
  direct_sum uninit s_conj dftmat R y =
  direct_sum_scheduled (seqZ 0 (R * shape1 dftmat - 0)).
Proof. reflexivity. Qed.

Lemma direct_sum_task_eq (p : Z) (x : mview2 C) :
  direct_sum_task p x =
  xrange 0 (shape0 dftmat) (fun n x => xnp <- accumulate n p ;; set2 x n p xnp) x.
Proof. reflexivity. Qed.

(** The sum in the order of the loop. *)
Definition sum_left (f : Z -> C) (l : list Z) (a0 : C) : C :=
  fold_left (fun acc m => cadd acc (f m)) l a0.

Lemma accumulate_loop (term : Z -> res C) (l : list Z) (a0 : C) :
  (is_ok (for_each l (fun m acc => t <- term m ;; Ok (cadd acc t)) a0) <->
   forall m, m ∈ l -> is_ok (term m)) /\
  (forall v, for_each l (fun m acc => t <- term m ;; Ok (cadd acc t)) a0 = Ok v ->
             v = sum_left (fun m => val (term m)) l a0).
Proof.
  revert a0. induction l as [|m l IH]; intros a0; simpl.
  - split; [|by intros v [= <-]].
    split; [intros _ m Hm; by apply elem_of_nil in Hm | intros _; apply is_ok_Ok].
  - destruct (term m) as [t|e] eqn:Et; simpl.
    + destruct (IH (cadd a0 t)) as [IH1 IH2]. split.
      * rewrite IH1. split.
        -- intros H m' Hm'. apply elem_of_cons in Hm' as [->|Hm']; [rewrite Et; apply is_ok_Ok | auto].
        -- intros H m' Hm'. apply H. by right.
      * intros v Hv. apply IH2 in Hv. unfold sum_left in *. simpl. exact Hv.
    + split; [|discriminate]. split.
      * intros H. by apply not_ok_Err in H.
      * intros H. specialize (H m (list_elem_of_here _ _)). rewrite Et in H.
        by apply not_ok_Err in H.
Qed.

Lemma accumulate_summands (n p : Z) :
  accumulate n p =
  xrange (mstart p R) (mstop p R (len s_conj) (shape1 dftmat))
    (fun m acc => t <- summand n p m ;; Ok (cadd acc t)) czero.
Proof.
  unfold accumulate, xrange. apply for_each_ext. intros m acc _. unfold summand.
  destruct (get1 s_conj _); simpl; [|done].
  destruct (get2 dftmat _ _); simpl; [|done].
  destruct (get1 y _); done.
Qed.

Lemma accumulate_is_ok (n p : Z) :
  is_ok (accumulate n p) <->
  forall m, mstart p R <= m < mstop p R (len s_conj) (shape1 dftmat) -> is_ok (summand n p m).
Proof.
  rewrite accumulate_summands. unfold xrange.
  rewrite (proj1 (accumulate_loop _ _ _)).
  split; intros H m Hm; apply H.
  - apply elem_of_seqZ. lia.
  - apply elem_of_seqZ in Hm. lia.
Qed.

Lemma accumulate_val (n p : Z) (v : C) :
  accumulate n p = Ok v ->
  v = sum_left (fun m => val (summand n p m))
        (seqZ (mstart p R) (mstop p R (len s_conj) (shape1 dftmat) - mstart p R)) czero.
Proof. rewrite accumulate_summands. apply accumulate_loop. Qed.

Lemma summand_Err (n p m : Z) (e : fault) : summand n p m = Err e -> e = OutOfBounds.
Proof.
  unfold summand. intros H.
  apply bind_Err_inv in H as [H|(sk & _ & H)]; [by eapply get1_Err |].
  apply bind_Err_inv in H as [H|(d & _ & H)]; [by eapply get2_Err |].
  apply bind_Err_inv in H as [H|(ym & _ & H)]; [by eapply get1_Err | discriminate].
Qed.

Lemma accumulate_Err (n p : Z) (e : fault) : accumulate n p = Err e -> e = OutOfBounds.
Proof.
  rewrite accumulate_summands. unfold xrange. apply for_each_Err.
  intros m acc e' H. apply bind_Err_inv in H as [H|(t & _ & H)]; [by eapply summand_Err | discriminate].
Qed.

(** What the task of column [p] does: it sets the cells of column [p], to
    the accumulated values, and no other cell. *)

Definition column (p : Z) : Z -> Z -> bool :=
  fun i j => existsb (fun n => cell n p i j) (seqZ 0 (shape0 dftmat - 0)).

Lemma column_spec (p i j : Z) :
  column p i j = in_extent i (shape0 dftmat) && (j =? p).
Proof.
  unfold column. apply eq_true_iff_eq.
  rewrite existsb_exists, andb_true_iff, in_extent_true, Z.eqb_eq. split.
  - intros (n & Hn & Hc). apply list_elem_of_In, elem_of_seqZ in Hn.
    unfold cell in Hc. apply andb_true_iff in Hc as [->%Z.eqb_eq ->%Z.eqb_eq]. lia.
  - intros [Hi ->]. exists i. split.
    + apply list_elem_of_In, elem_of_seqZ. lia.
    + unfold cell. by rewrite !Z.eqb_refl.
Qed.

Lemma direct_sum_task_fills (p : Z) (x x' : mview2 C) :
  direct_sum_task p x = Ok x' ->
  fills (column p) (fun n p => val (accumulate n p)) x x'.
Proof.
  rewrite direct_sum_task_eq. unfold xrange, column.
  apply (for_each_fills (fun n => cell n p)).
  intros n a a' _ H. apply bind_Ok_inv in H as (v & Hv & Hs).
  eapply fills_ext; [done | | apply (fills_set2 (fun _ _ => v)); exact Hs].
  intros i j Hc. unfold cell in Hc.
  apply andb_true_iff in Hc as [->%Z.eqb_eq ->%Z.eqb_eq]. by rewrite Hv.
Qed.

Lemma direct_sum_task_shape (p : Z) (x x' : mview2 C) :
  direct_sum_task p x = Ok x' -> same_shape x x'.
Proof. intros H. by apply direct_sum_task_fills in H as [Hs _]. Qed.

Lemma direct_sum_cell_transfer (n p : Z) (a b : mview2 C) :
  same_shape a b ->
  is_ok (xnp <- accumulate n p ;; set2 a n p xnp) ->
  is_ok (xnp <- accumulate n p ;; set2 b n p xnp).
Proof.
  intros (H0 & H1 & Hl). rewrite !is_ok_bind. intros (v & Hv & Hs). exists v. split; [done |].
  apply set2_is_ok in Hs. apply set2_is_ok. unfold offset, len in *.
  rewrite <- H0, <- H1, <- Hl. done.
Qed.

Lemma direct_sum_task_transfer (p : Z) (a b : mview2 C) :
  same_shape a b -> is_ok (direct_sum_task p a) -> is_ok (direct_sum_task p b).
Proof.
  intros Hab. rewrite !direct_sum_task_eq. unfold xrange.
  set (body := fun n x => xnp <- accumulate n p ;; set2 x n p xnp).
  assert (forall k a a', body k a = Ok a' -> same_shape a a') as Hshape.
  { intros k c c' H. apply bind_Ok_inv in H as (v & _ & H). by eapply set2_same_shape. }
  assert (forall k a b, same_shape a b -> is_ok (body k a) -> is_ok (body k b)) as Htr.
  { intros k c c'. apply direct_sum_cell_transfer. }
  rewrite (for_each_ok_iff body Hshape Htr _ a a (same_shape_refl a)).
  rewrite (for_each_ok_iff body Hshape Htr _ a b Hab). done.
Qed.

Lemma direct_sum_task_Err (p : Z) (x : mview2 C) (e : fault) :
  direct_sum_task p x = Err e -> e = OutOfBounds.
Proof.
  rewrite direct_sum_task_eq. unfold xrange. apply for_each_Err.
  intros n a e' H. apply bind_Err_inv in H as [H|(t & _ & H)];
    [by eapply accumulate_Err | by eapply set2_Err].
Qed.

(** The cells that a run of the tasks of [sched] sets. *)
Definition columns (sched : list Z) : Z -> Z -> bool :=
  fun i j => existsb (fun p => column p i j) sched.

Lemma columns_spec (sched : list Z) (i j : Z) :
  columns sched i j = in_extent i (shape0 dftmat) && bool_decide (j ∈ sched).
Proof.
  unfold columns. apply eq_true_iff_eq.
  rewrite existsb_exists, andb_true_iff, bool_decide_eq_true. split.
  - intros (p & Hp & Hc). rewrite column_spec in Hc.
    apply andb_true_iff in Hc as [Hi ->%Z.eqb_eq]. split; [done | by apply list_elem_of_In].
  - intros [Hi Hj]. exists j. split; [by apply list_elem_of_In |].
    rewrite column_spec, Hi, Z.eqb_refl. done.
Qed.

Lemma scheduled_fills (sched : list Z) (x x' : mview2 C) :
  for_each sched direct_sum_task x = Ok x' ->
  fills (columns sched) (fun n p => val (accumulate n p)) x x'.
Proof.
  apply (for_each_fills column). intros p a a' _. apply direct_sum_task_fills.
Qed.

(** Two runs of the same tasks, in any two orders, end alike. *)
Lemma for_each_task_perm (l l' : list Z) (x : mview2 C) :
  wf x -> l ≡ₚ l' ->
  for_each l direct_sum_task x = for_each l' direct_sum_task x.
Proof.
  intros Hwf Hperm.
  pose proof (for_each_ok_iff direct_sum_task direct_sum_task_shape
                direct_sum_task_transfer l x x (same_shape_refl x)) as Hl.
  pose proof (for_each_ok_iff direct_sum_task direct_sum_task_shape
                direct_sum_task_transfer l' x x (same_shape_refl x)) as Hl'.
  assert (is_ok (for_each l direct_sum_task x) <-> is_ok (for_each l' direct_sum_task x)) as Hiff.
  { rewrite Hl, Hl'. split; intros H k Hk; apply H; [by rewrite Hperm | by rewrite <- Hperm]. }
  destruct (for_each l direct_sum_task x) as [xa|e] eqn:Ea,
           (for_each l' direct_sum_task x) as [xb|e'] eqn:Eb.
  - f_equal. apply scheduled_fills in Ea as [Hsa Ha], Eb as [Hsb Hb].
    apply mview2_ext.
    + by eapply same_shape_wf.
    + eapply same_shape_trans; [apply same_shape_sym; exact Hsa | exact Hsb].
    + intros i j _ _. rewrite Ha, Hb, !columns_spec.
      by rewrite (bool_decide_ext (j ∈ l) (j ∈ l')) by (by rewrite Hperm).
  - exfalso. eapply not_ok_Err. apply Hiff. apply is_ok_Ok.
  - exfalso. eapply not_ok_Err. apply Hiff. apply is_ok_Ok.
  - f_equal. apply (for_each_Err _ _ _ _ OutOfBounds direct_sum_task_Err) in Ea, Eb. congruence.
Qed.

Lemma PyArray_EMPTY_Ok (d0 d1 : Z) (x : mview2 C) :
  PyArray_EMPTY uninit d0 d1 = Ok x ->
  0 <= d0 /\ 0 <= d1 /\ shape0 x = d0 /\ shape1 x = d1 /\ wf x.
Proof.
  unfold PyArray_EMPTY.
  destruct (Z.ltb_spec d0 0), (Z.ltb_spec d1 0); simpl; try discriminate.
  intros [= <-]. unfold wf, len. simpl. rewrite length_fmap, length_seq.
  repeat split; lia.
Qed.

Lemma PyArray_EMPTY_is_ok (d0 d1 : Z) :
  0 <= d0 -> 0 <= d1 -> is_ok (PyArray_EMPTY uninit d0 d1).
Proof.
  intros H0 H1. unfold PyArray_EMPTY.
  destruct (Z.ltb_spec d0 0), (Z.ltb_spec d1 0); simpl; try lia. apply is_ok_Ok.
Qed.

(** When the kernel returns: the faults of a run depend on the extents
    only, never on the values. *)

Lemma summand_is_ok (n p m : Z) :
  is_ok (summand n p m) <->
  0 <= R * m - p < len s_conj /\ is_ok (get2 dftmat n m) /\ 0 <= m < len y.
Proof.
  unfold summand. rewrite is_ok_bind. split.
  - intros (sk & Hsk & H). apply is_ok_bind in H as (d & Hd & H).
    apply is_ok_bind in H as (ym & Hym & _).
    split; [apply get1_is_ok; by exists sk |].
    split; [by exists d | apply get1_is_ok; by exists ym].
  - intros (Hs & [d Hd] & Hy).
    apply get1_is_ok in Hs as [sk Hsk]. apply get1_is_ok in Hy as [ym Hym].
    exists sk. split; [done |]. rewrite Hd, Hym. apply is_ok_Ok.
Qed.

Lemma direct_sum_cell_shape (p n : Z) (a a' : mview2 C) :
  (xnp <- accumulate n p ;; set2 a n p xnp) = Ok a' -> same_shape a a'.
Proof. intros H. apply bind_Ok_inv in H as (v & _ & H). by eapply set2_same_shape. Qed.

Lemma direct_sum_task_is_ok (p : Z) (x : mview2 C) :
  is_ok (direct_sum_task p x) <->
  forall n, 0 <= n < shape0 dftmat ->
    is_ok (accumulate n p) /\ is_ok (set2 x n p czero).
Proof.
  rewrite direct_sum_task_eq. unfold xrange.
  rewrite (for_each_ok_iff (fun n x => xnp <- accumulate n p ;; set2 x n p xnp)
             (direct_sum_cell_shape p)
             (fun n a b => direct_sum_cell_transfer n p a b) _ x x (same_shape_refl x)).
  split.
  - intros H n Hn. specialize (H n). rewrite elem_of_seqZ in H.
    destruct H as [x' H]; [lia |]. apply bind_Ok_inv in H as (v & Hv & Hs).
    split; [by exists v |]. apply set2_is_ok. apply (set2_is_ok x n p v). by exists x'.
  - intros H n Hn. apply elem_of_seqZ in Hn. destruct (H n) as [[v Hv] Hs]; [lia |].
    rewrite Hv. simpl. apply set2_is_ok. by apply (set2_is_ok x n p czero).
Qed.

(** Every read of the run is inside its array, for a signal of [ylen]
    samples. *)
Definition reads_in_bounds (ylen : Z) : Prop :=
  forall p n m,
    0 <= p < R * shape1 dftmat -> 0 <= n < shape0 dftmat ->
    mstart p R <= m < mstop p R (len s_conj) (shape1 dftmat) ->
    0 <= R * m - p < len s_conj /\ is_ok (get2 dftmat n m) /\ 0 <= m < ylen.

Lemma scheduled_is_ok (sched : list Z) (x : mview2 C) :
  wf x -> shape0 x = shape0 dftmat -> shape1 x = R * shape1 dftmat ->
  is_ok (for_each sched direct_sum_task x) <->
  forall p n, p ∈ sched -> 0 <= n < shape0 dftmat ->
    0 <= p < R * shape1 dftmat /\
    forall m, mstart p R <= m < mstop p R (len s_conj) (shape1 dftmat) ->
      is_ok (summand n p m).
Proof.
  intros Hwf H0 H1.
  rewrite (for_each_ok_iff direct_sum_task direct_sum_task_shape
             direct_sum_task_transfer sched x x (same_shape_refl x)).
  split.
  - intros H p n Hp Hn. apply H in Hp. apply direct_sum_task_is_ok with (n := n) in Hp as [Ha Hs]; [|done].
    apply set2_is_ok in Hs. split; [lia |]. by apply accumulate_is_ok.
  - intros H p Hp. apply direct_sum_task_is_ok. intros n Hn.
    destruct (H p n Hp Hn) as [Hpr Hm]. split; [by apply accumulate_is_ok |].
    apply set2_wf_ok; [done | lia | lia].
Qed.

Lemma direct_sum_is_ok :
  is_ok (direct_sum uninit s_conj dftmat R y) <->
  0 <= shape0 dftmat /\ 0 <= R * shape1 dftmat /\ reads_in_bounds (len y).
Proof.
  rewrite direct_sum_tasks. unfold direct_sum_scheduled. rewrite is_ok_bind. split.
  - intros (x & Hx & H). apply PyArray_EMPTY_Ok in Hx as (Hn & Hk & H0 & H1 & Hwf).
    split; [done |]. split; [done |].
    rewrite (scheduled_is_ok _ x Hwf H0 H1) in H.
    intros p n m Hp Hnn Hm. destruct (H p n) as [_ Hs]; [apply elem_of_seqZ; lia | done |].
    by apply summand_is_ok, Hs.
  - intros (Hn & Hk & Hr). destruct (PyArray_EMPTY_is_ok _ _ Hn Hk) as [x Hx].
    exists x. split; [done |].
    apply PyArray_EMPTY_Ok in Hx as (_ & _ & H0 & H1 & Hwf).
    apply (scheduled_is_ok _ x Hwf H0 H1). intros p n Hp Hnn.
    apply elem_of_seqZ in Hp. split; [lia |]. intros m Hm.
    apply summand_is_ok. apply Hr; [lia | done | done].
Qed.

Lemma direct_sum_Err (e : fault) :
  direct_sum uninit s_conj dftmat R y = Err e ->
  e = if (shape0 dftmat <? 0) || (R * shape1 dftmat <? 0) then ValueError else OutOfBounds.
Proof.
  rewrite direct_sum_tasks. unfold direct_sum_scheduled. intros H.
  apply bind_Err_inv in H as [H|(x & Hx & H)].
  - unfold PyArray_EMPTY in H. destruct (_ || _); congruence.
  - apply PyArray_EMPTY_Ok in Hx as (Hn & Hk & _).
    destruct (Z.ltb_spec (shape0 dftmat) 0), (Z.ltb_spec (R * shape1 dftmat) 0); try lia.
    simpl. by apply (for_each_Err _ _ _ _ OutOfBounds direct_sum_task_Err) in H.
Qed.

(** What the kernel returns: an array of the extents [N] and [R * M], every
    cell of which holds the accumulated value of its coordinates. *)
Lemma direct_sum_Ok (x : mview2 C) :
  direct_sum uninit s_conj dftmat R y = Ok x ->
  shape0 x = shape0 dftmat /\ shape1 x = R * shape1 dftmat /\ wf x /\
  forall n p, 0 <= n < shape0 dftmat -> 0 <= p < R * shape1 dftmat ->
    get2 x n p = Ok (val (accumulate n p)).
Proof.
  rewrite direct_sum_tasks. unfold direct_sum_scheduled. intros H.
  apply bind_Ok_inv in H as (x0 & Hx0 & H).
  apply PyArray_EMPTY_Ok in Hx0 as (Hn & Hk & H0 & H1 & Hwf).
  apply scheduled_fills in H as [Hs Hf].
  pose proof (same_shape_wf _ _ Hs Hwf) as Hwf'. destruct Hs as (Hs0 & Hs1 & _).
  repeat split; try congruence; try apply Hwf'.
  intros n p Hnn Hp. rewrite Hf, columns_spec.
  rewrite (proj2 (in_extent_true _ _) Hnn). simpl.
  rewrite bool_decide_eq_true_2; [done |]. apply elem_of_seqZ. lia.
Qed.

(** *** The stores of a run

    The inputs of the kernel are only read and the accumulator is private to
    a task, so the tasks act on the shared state through their stores
    [x[n, p] = xnp] alone.  [task_stores p] lists the stores of the task of
    index [p], in its order; [replay] performs a list of stores. *)

Record store : Type := Store {
  row_of : Z;
  col_of : Z;
  value_of : C
}.

Definition target (e : store) : Z * Z := (row_of e, col_of e).

Fixpoint replay (ev : list store) (x : mview2 C) : res (mview2 C) :=
  match ev with
  | [] => Ok x
  | e :: rest => x' <- set2 x (row_of e) (col_of e) (value_of e) ;; replay rest x'
  end.

Definition task_stores (p : Z) : list store :=
  (fun n => Store n p (val (accumulate n p))) <$> seqZ 0 (shape0 dftmat).

Definition run_stores : list store :=
  seqZ 0 (R * shape1 dftmat) ≫= task_stores.

Lemma replay_app (ev1 ev2 : list store) (x : mview2 C) :
  replay (ev1 ++ ev2) x = (x' <- replay ev1 x ;; replay ev2 x').
Proof.
  revert x. induction ev1 as [|e ev1 IH]; intros x; simpl; [done |].
  destruct (set2 x _ _ _); simpl; [apply IH | done].
Qed.

(** A task whose accumulations do not fault performs its stores. *)
Lemma task_replay (p : Z) (x : mview2 C) :
  (forall n, 0 <= n < shape0 dftmat -> is_ok (accumulate n p)) ->
  direct_sum_task p x = replay (task_stores p) x.
Proof.
  intros Hacc. rewrite direct_sum_task_eq. unfold xrange, task_stores.
  rewrite Z.sub_0_r.
  assert (forall n, n ∈ seqZ 0 (shape0 dftmat) -> is_ok (accumulate n p)) as Hl.
  { intros n Hn. apply elem_of_seqZ in Hn. apply Hacc. lia. }
  clear Hacc. revert x. induction (seqZ 0 (shape0 dftmat)) as [|n l IH]; intros x; [done |].
  simpl. destruct (Hl n) as [v Hv]; [by left |]. rewrite Hv. simpl.
  destruct (set2 x n p v); simpl; [|done]. apply IH. intros k Hk. apply Hl. by right.
Qed.

Lemma scheduled_replay (sched : list Z) (x : mview2 C) :
  (forall p n, p ∈ sched -> 0 <= n < shape0 dftmat -> is_ok (accumulate n p)) ->
  for_each sched direct_sum_task x = replay (sched ≫= task_stores) x.
Proof.
  revert x. induction sched as [|p sched IH]; intros x Hacc; [done |].
  rewrite bind_cons, replay_app. simpl.
  rewrite task_replay by (intros n Hn; apply Hacc; [by left | done]).
  destruct (replay (task_stores p) x); simpl; [|done].
  apply IH. intros q n Hq. apply Hacc. by right.
Qed.

Lemma replay_fills (g : Z -> Z -> C) (ev : list store) (x x' : mview2 C) :
  (forall e, e ∈ ev -> value_of e = g (row_of e) (col_of e)) ->
  replay ev x = Ok x' ->
  fills (fun i j => existsb (fun e => cell (row_of e) (col_of e) i j) ev) g x x'.
Proof.
  revert x. induction ev as [|e ev IH]; intros x Hg; simpl.
  - intros [= <-]. split; [apply same_shape_refl | done].
  - intros H. apply bind_Ok_inv in H as (x1 & H1 & H2).
    eapply fills_trans.
    + apply fills_set2. rewrite <- Hg by left. exact H1.
    + apply IH; [|exact H2]. intros e' He'. apply Hg. by right.
Qed.

Lemma replay_ok_iff (ev : list store) (x0 x : mview2 C) :
  same_shape x0 x ->
  is_ok (replay ev x) <->
  forall e, e ∈ ev -> is_ok (set2 x0 (row_of e) (col_of e) (value_of e)).
Proof.
  assert (forall a b i j v, same_shape a b ->
            is_ok (set2 (A := C) a i j v) -> is_ok (set2 b i j v)) as Htr.
  { intros a b i j v (H0 & H1 & Hl) H. apply set2_is_ok in H. apply set2_is_ok.
    unfold offset, len in *. rewrite <- H0, <- H1, <- Hl. done. }
  revert x. induction ev as [|e ev IH]; intros x Hx; simpl.
  - split; [intros _ e He; by apply elem_of_nil in He | intros _; apply is_ok_Ok].
  - rewrite is_ok_bind. split.
    + intros (x1 & H1 & H2) e' He'. apply elem_of_cons in He' as [->|He'].
      * apply (Htr x); [by apply same_shape_sym | by exists x1].
      * eapply IH; [|exact H2|exact He'].
        eapply same_shape_trans; [exact Hx | by eapply set2_same_shape].
    + intros Hall. destruct (Htr x0 x (row_of e) (col_of e) (value_of e) Hx) as [x1 H1];
        [apply Hall; by left |].
      exists x1. split; [done |]. apply IH.
      * eapply same_shape_trans; [exact Hx | by eapply set2_same_shape].
      * intros e' He'. apply Hall. by right.
Qed.

Lemma replay_Err (ev : list store) (x : mview2 C) (e : fault) :
  replay ev x = Err e -> e = OutOfBounds.
Proof.
  revert x. induction ev as [|e' ev IH]; intros x; simpl; [discriminate |].
  intros H. apply bind_Err_inv in H as [H|(x1 & _ & H)]; [by eapply set2_Err | by eapply IH].
Qed.

(** Stores whose values are determined by their targets can be performed in
    any order. *)
Lemma replay_perm (g : Z -> Z -> C) (ev ev' : list store) (x : mview2 C) :
  wf x -> ev ≡ₚ ev' ->
  (forall e, e ∈ ev -> value_of e = g (row_of e) (col_of e)) ->
  replay ev x = replay ev' x.
Proof.
  intros Hwf Hperm Hg.
  assert (forall e, e ∈ ev' -> value_of e = g (row_of e) (col_of e)) as Hg'.
  { intros e He. apply Hg. by rewrite Hperm. }
  assert (is_ok (replay ev x) <-> is_ok (replay ev' x)) as Hiff.
  { rewrite (replay_ok_iff ev x x (same_shape_refl x)).
    rewrite (replay_ok_iff ev' x x (same_shape_refl x)).
    split; intros H e He; apply H; [by rewrite Hperm | by rewrite <- Hperm]. }
  destruct (replay ev x) as [xa|e] eqn:Ea, (replay ev' x) as [xb|e'] eqn:Eb.
  - f_equal. apply (replay_fills g) in Ea as [Hsa Ha]; [|done].
    apply (replay_fills g) in Eb as [Hsb Hb]; [|done].
    apply mview2_ext.
    + by eapply same_shape_wf.
    + eapply same_shape_trans; [apply same_shape_sym; exact Hsa | exact Hsb].
    + intros i j _ _. rewrite Ha, Hb.
      assert (existsb (fun e => cell (row_of e) (col_of e) i j) ev =
              existsb (fun e => cell (row_of e) (col_of e) i j) ev') as ->; [|done].
      apply eq_true_iff_eq. rewrite !existsb_exists.
      split; intros (e & He & Hc); exists e; (split; [|done]);
        apply list_elem_of_In; apply list_elem_of_In in He;
        [by rewrite <- Hperm | by rewrite Hperm].
  - exfalso. eapply not_ok_Err. apply Hiff. apply is_ok_Ok.
  - exfalso. eapply not_ok_Err. apply Hiff. apply is_ok_Ok.
  - f_equal. apply replay_Err in Ea, Eb. congruence.
Qed.

Lemma elem_of_run_stores (e : store) :
  e ∈ run_stores <->
  0 <= col_of e < R * shape1 dftmat /\ 0 <= row_of e < shape0 dftmat /\
  value_of e = val (accumulate (row_of e) (col_of e)).
Proof.
  unfold run_stores, task_stores. rewrite list_elem_of_bind. split.
  - intros (p & He & Hp). apply list_elem_of_fmap in He as (n & -> & Hn).
    apply elem_of_seqZ in Hp, Hn. simpl. repeat split; lia.
  - intros (Hp & Hn & Hv). exists (col_of e). split; [|apply elem_of_seqZ; lia].
    apply list_elem_of_fmap. exists (row_of e). split; [|apply elem_of_seqZ; lia].
    destruct e as [n p v]. simpl in *. by rewrite Hv.
Qed.

(** No cell is stored twice in a run. *)
Lemma NoDup_run_stores : NoDup (target <$> run_stores).
Proof.
  apply NoDup_fmap_2_strong.
  - intros e1 e2 H1 H2 Ht. apply elem_of_run_stores in H1 as (_ & _ & Hv1).
    apply elem_of_run_stores in H2 as (_ & _ & Hv2).
    destruct e1 as [n1 p1 v1], e2 as [n2 p2 v2]. unfold target in Ht. simpl in *.
    injection Ht as -> ->. by rewrite Hv1, Hv2.
  - unfold run_stores. apply NoDup_bind; [| |apply NoDup_seqZ].
    + intros p1 p2 e _ _ H1 H2. unfold task_stores in *.
      apply list_elem_of_fmap in H1 as (n1 & -> & _).
      apply list_elem_of_fmap in H2 as (n2 & [=] & _). done.
    + intros p _. unfold task_stores. apply NoDup_fmap_2_strong; [|apply NoDup_seqZ].
      intros n1 n2 _ _ [=]. done.
Qed.

End DirectSum.

(** ** Determinism of the direct sum under any schedule *)

Section Determinism.

Context {S C : Type} `{Sc : Scalars S C}.

Variable uninit : nat -> C.

(** C10.  The direct sum is deterministic whatever the arithmetic is (no law
    is assumed of it, so the statement covers rounding arithmetic): for every
    schedule of the tasks of the parallel loop, that is every order [sched]
    of the indices [0 .. R*M - 1], the run gives the same outcome as the
    loop in increasing order.  The reason is in the second part: the task of
    index [p] leaves every other column as it was, and the value it stores in
    [x[n, p]] is accumulated from zero in the increasing order of [m].  The
    third part is the same fact store by store: when the call returns, no
    cell is the target of two stores of the run, and the stores of all the
    tasks, performed on the fresh array in any order at all (the tasks
    interleaved in any way), give the array that the call returns. *)
Theorem direct_sum_deterministic
    (s : list S) (dftmat : mview2 C) (R : Z) (y : list C) (sched : list Z) :
  sched ≡ₚ seqZ 0 (R * shape1 dftmat) ->
  direct_sum_scheduled uninit (np_conj <$> s) dftmat R y sched =
    DirectSumCython uninit s dftmat R y
  /\ (forall p x x',
        direct_sum_task (np_conj <$> s) dftmat R y p x = Ok x' ->
        (forall n q, q <> p -> get2 x' n q = get2 x n q) /\
        (forall n, 0 <= n < shape0 dftmat ->
           get2 x' n p =
           Ok (sum_left (fun m => val (summand (np_conj <$> s) dftmat R y n p m))
                 (seqZ (mstart p R)
                    (mstop p R (len (np_conj <$> s)) (shape1 dftmat) - mstart p R))
                 czero)))
  /\ (forall x,
        DirectSumCython uninit s dftmat R y = Ok x ->
        NoDup (target <$> run_stores (np_conj <$> s) dftmat R y) /\
        forall ev, ev ≡ₚ run_stores (np_conj <$> s) dftmat R y ->
          exists x0,
            PyArray_EMPTY uninit (shape0 dftmat) (R * shape1 dftmat) = Ok x0 /\
            replay ev x0 = Ok x).
Proof.
  intros Hperm. split; [|split].
  - unfold DirectSumCython. rewrite direct_sum_tasks. unfold direct_sum_scheduled.
    destruct (PyArray_EMPTY uninit _ _) as [x0|e] eqn:E; simpl; [|done].
    apply PyArray_EMPTY_Ok in E as (_ & _ & _ & _ & Hwf).
    apply for_each_task_perm; [done |]. by rewrite Z.sub_0_r.
  - intros p x x' Htask.
    pose proof (direct_sum_task_fills _ _ _ _ _ _ _ Htask) as [_ Hf]. split.
    + intros n q Hq. rewrite Hf, column_spec.
      destruct (Z.eqb_spec q p); [done |]. by rewrite andb_false_r.
    + intros n Hn. rewrite Hf, column_spec, Z.eqb_refl.
      rewrite (proj2 (in_extent_true _ _) Hn). simpl. f_equal.
      assert (is_ok (direct_sum_task (np_conj <$> s) dftmat R y p x)) as Hok by (by exists x').
      apply direct_sum_task_is_ok with (n := n) in Hok as [[v Hv] _]; [|done].
      rewrite Hv. simpl. by apply accumulate_val.
  - intros x Hx. split; [apply NoDup_run_stores |]. intros ev Hev.
    unfold DirectSumCython in Hx.
    assert (is_ok (direct_sum uninit (np_conj <$> s) dftmat R y)) as Hok by (by exists x).
    apply direct_sum_is_ok in Hok as (_ & _ & Hr).
    rewrite direct_sum_tasks in Hx. unfold direct_sum_scheduled in Hx.
    apply bind_Ok_inv in Hx as (x0 & Hx0 & Hx). exists x0. split; [done |].
    pose proof (PyArray_EMPTY_Ok _ _ _ _ Hx0) as (_ & _ & _ & _ & Hwf).
    rewrite scheduled_replay in Hx.
    2:{ intros p n Hp Hn. apply elem_of_seqZ in Hp.
        apply accumulate_is_ok. intros m Hm. apply summand_is_ok. apply Hr; [lia | done | done]. }
    rewrite Z.sub_0_r in Hx. fold (run_stores (np_conj <$> s) dftmat R y) in Hx.
    rewrite <- Hx.
    apply (replay_perm (fun n p => val (accumulate (np_conj <$> s) dftmat R y n p)));
      [done | done |].
    intros e He. rewrite Hev in He. by apply elem_of_run_stores in He as (_ & _ & Hv).
Qed.

End Determinism.

(** ** The demodulation of [codefreq], without any law of arithmetic *)

Section Demodulation.

Context {S C : Type} `{Sc : Scalars S C}.

Variables (s' : list S) (M R : Z) (y : list C).

(** The product stored at [demodpad[p, m]] (line 131). *)
Definition demod_value (p m : Z) : res C :=
  sk <- get1 s' (R * m - p) ;;
  ym <- get1 y m ;;
  Ok (cmul (promote sk) ym).

(** The cells inside the support windows: the rows [0 <= p < R M] and, in
    row [p], the columns from [mstart] to [mstop] as the kernel computes
    them. *)
Definition in_window (L : Z) (p m : Z) : bool :=
  in_extent p (R * M) && (mstart p R <=? m) && (m <? mstop p R L M).

(** The body of the loop over [p] (lines 123-131). *)
Definition demodulate_row (p : Z) (demodpad : mview2 C) : res (mview2 C) :=
  let mstart := (p - 1 + R) ÷ R in
  let mstop := Z.min M ((p + len s' - 1) ÷ R + 1) in
  xrange mstart mstop (fun m demodpad =>
    sk <- get1 s' (R * m - p) ;;
    ym <- get1 y m ;;
    set2 demodpad p m (cmul (promote sk) ym)) demodpad.

Lemma demodulate_rows (demodpad : mview2 C) :
  demodulate s' demodpad M R y = prange (R * M) demodulate_row demodpad.
Proof. reflexivity. Qed.

Lemma demod_cell_eq (p m : Z) (a : mview2 C) :
  (sk <- get1 s' (R * m - p) ;; ym <- get1 y m ;; set2 a p m (cmul (promote sk) ym)) =
  (v <- demod_value p m ;; set2 a p m v).
Proof.
  unfold demod_value. destruct (get1 s' _); simpl; [|done]. destruct (get1 y m); done.
Qed.

Lemma demodulate_row_eq (p : Z) (a : mview2 C) :
  demodulate_row p a =
  xrange (mstart p R) (mstop p R (len s') M)
    (fun m a => v <- demod_value p m ;; set2 a p m v) a.
Proof.
  unfold demodulate_row, xrange. apply for_each_ext. intros m a' _. apply demod_cell_eq.
Qed.

Lemma demod_cell_fills (p m : Z) (a a' : mview2 C) :
  (v <- demod_value p m ;; set2 a p m v) = Ok a' ->
  fills (cell p m) (fun p m => val (demod_value p m)) a a'.
Proof.
  intros H. apply bind_Ok_inv in H as (v & Hv & Hs).
  eapply fills_ext; [done | | apply (fills_set2 (fun _ _ => v)); exact Hs].
  intros i j Hc. unfold cell in Hc.
  apply andb_true_iff in Hc as [->%Z.eqb_eq ->%Z.eqb_eq]. by rewrite Hv.
Qed.

Lemma demod_cell_shape (p m : Z) (a a' : mview2 C) :
  (v <- demod_value p m ;; set2 a p m v) = Ok a' -> same_shape a a'.
Proof. intros H. by apply demod_cell_fills in H as [Hs _]. Qed.

Lemma demod_cell_transfer (p m : Z) (a b : mview2 C) :
  same_shape a b ->
  is_ok (v <- demod_value p m ;; set2 a p m v) ->
  is_ok (v <- demod_value p m ;; set2 b p m v).
Proof.
  intros (H0 & H1 & Hl). rewrite !is_ok_bind. intros (v & Hv & Hs). exists v. split; [done |].
  apply set2_is_ok in Hs. apply set2_is_ok. unfold offset, len in *.
  rewrite <- H0, <- H1, <- Hl. done.
Qed.

Definition row (L p : Z) : Z -> Z -> bool :=
  fun i j => existsb (fun m => cell p m i j) (seqZ (mstart p R) (mstop p R L M - mstart p R)).

Lemma row_spec (L p i j : Z) :
  row L p i j = (i =? p) && (mstart p R <=? j) && (j <? mstop p R L M).
Proof.
  unfold row. apply eq_true_iff_eq.
  rewrite existsb_exists, !andb_true_iff, Z.eqb_eq, Z.leb_le, Z.ltb_lt. split.
  - intros (m & Hm & Hc). apply list_elem_of_In, elem_of_seqZ in Hm.
    unfold cell in Hc. apply andb_true_iff in Hc as [->%Z.eqb_eq ->%Z.eqb_eq]. lia.
  - intros [[-> Hlo] Hhi]. exists j. split.
    + apply list_elem_of_In, elem_of_seqZ. lia.
    + unfold cell. by rewrite !Z.eqb_refl.
Qed.

Lemma demodulate_row_fills (p : Z) (a a' : mview2 C) :
  demodulate_row p a = Ok a' ->
  fills (row (len s') p) (fun p m => val (demod_value p m)) a a'.
Proof.
  rewrite demodulate_row_eq. unfold xrange, row.
  apply (for_each_fills (fun m => cell p m)). intros m b b' _. apply demod_cell_fills.
Qed.

Lemma demodulate_row_shape (p : Z) (a a' : mview2 C) :
  demodulate_row p a = Ok a' -> same_shape a a'.
Proof. intros H. by apply demodulate_row_fills in H as [Hs _]. Qed.

Lemma demodulate_row_transfer (p : Z) (a b : mview2 C) :
  same_shape a b -> is_ok (demodulate_row p a) -> is_ok (demodulate_row p b).
Proof.
  intros Hab. rewrite !demodulate_row_eq. unfold xrange.
  rewrite (for_each_ok_iff (fun m a => v <- demod_value p m ;; set2 a p m v)
             (demod_cell_shape p) (demod_cell_transfer p) _ a a (same_shape_refl a)).
  rewrite (for_each_ok_iff (fun m a => v <- demod_value p m ;; set2 a p m v)
             (demod_cell_shape p) (demod_cell_transfer p) _ a b Hab). done.
Qed.

(** A demodulation that returns has set the cells inside the windows, to
    the demodulated values, and has left every other cell as it was. *)
Lemma demodulate_fills (a a' : mview2 C) :
  demodulate s' a M R y = Ok a' ->
  fills (in_window (len s')) (fun p m => val (demod_value p m)) a a'.
Proof.
  rewrite demodulate_rows. unfold prange, xrange. intros H.
  apply (for_each_fills (row (len s')) (fun p m => val (demod_value p m))) in H.
  2:{ intros p b b' _. apply demodulate_row_fills. }
  eapply fills_ext; [| |exact H]; [|done].
  intros i j. unfold in_window. apply eq_true_iff_eq.
  rewrite existsb_exists, !andb_true_iff, in_extent_true, Z.leb_le, Z.ltb_lt. split.
  - intros (p & Hp & Hr). apply list_elem_of_In, elem_of_seqZ in Hp.
    rewrite row_spec in Hr.
    apply andb_true_iff in Hr as [[->%Z.eqb_eq Hlo%Z.leb_le]%andb_true_iff Hhi%Z.ltb_lt]. lia.
  - intros [[Hi Hlo] Hhi]. exists i. split.
    + apply list_elem_of_In, elem_of_seqZ. lia.
    + rewrite row_spec, Z.eqb_refl. simpl. apply andb_true_iff.
      by rewrite Z.leb_le, Z.ltb_lt.
Qed.

(** Whether a demodulation returns depends on the extents of the buffer
    only. *)
Lemma demodulate_transfer (a b : mview2 C) :
  same_shape a b -> is_ok (demodulate s' a M R y) -> is_ok (demodulate s' b M R y).
Proof.
  intros Hab. rewrite !demodulate_rows. unfold prange, xrange.
  rewrite (for_each_ok_iff demodulate_row demodulate_row_shape demodulate_row_transfer
             _ a a (same_shape_refl a)).
  rewrite (for_each_ok_iff demodulate_row demodulate_row_shape demodulate_row_transfer
             _ a b Hab). done.
Qed.

(** Two buffers that agree outside the windows are demodulated to the same
    buffer. *)
Definition agree_outside (W : Z -> Z -> bool) (a b : mview2 C) : Prop :=
  same_shape a b /\ forall i j, W i j = false -> get2 a i j = get2 b i j.

Lemma demodulate_agree (a b a' : mview2 C) :
  wf a -> agree_outside (in_window (len s')) a b ->
  demodulate s' a M R y = Ok a' -> demodulate s' b M R y = Ok a'.
Proof.
  intros Hwf [Hs Hout] Ha.
  destruct (demodulate_transfer a b Hs) as [b' Hb]; [by exists a' |].
  rewrite Hb. f_equal. symmetry.
  apply demodulate_fills in Ha as [Hsa Hfa], Hb as [Hsb Hfb].
  apply mview2_ext.
  - by eapply same_shape_wf.
  - eapply same_shape_trans; [apply same_shape_sym; exact Hsa |].
    eapply same_shape_trans; [exact Hs | exact Hsb].
  - intros i j _ _. rewrite Hfa, Hfb.
    destruct (in_window (len s') i j) eqn:E; [done | by apply Hout].
Qed.

(** When the demodulation returns: the buffer holds the rows and the
    columns that the loops index, and the reads are inside the waveform
    and the signal. *)
Lemma demodulate_is_ok (a : mview2 C) :
  wf a -> 1 <= R -> 1 <= len s' -> M <= len y ->
  R * M <= shape0 a -> M <= shape1 a ->
  is_ok (demodulate s' a M R y).
Proof.
  intros Hwf HR HL Hy H0 H1. rewrite demodulate_rows. unfold prange, xrange.
  destruct (for_each_total (same_shape a) (seqZ 0 (R * M - 0)) demodulate_row) with (st := a)
    as (a' & Ha' & _); [| apply same_shape_refl | by exists a'].
  intros p b Hp Hb. apply elem_of_seqZ in Hp.
  assert (is_ok (demodulate_row p b)) as [b' Hb'].
  2:{ exists b'. split; [done |]. eapply same_shape_trans; [exact Hb |].
      by eapply demodulate_row_shape. }
  rewrite demodulate_row_eq. unfold xrange.
  destruct (for_each_total (same_shape a)
              (seqZ (mstart p R) (mstop p R (len s') M - mstart p R))
              (fun m a => v <- demod_value p m ;; set2 a p m v)) with (st := b)
    as (b' & Hb' & _); [| done | by exists b'].
  intros m c Hm Hc. apply elem_of_seqZ in Hm.
  assert (mstart p R <= m < mstop p R (len s') M) as Hw by lia.
  apply window_iff in Hw; [|lia|lia|lia].
  assert (is_ok (demod_value p m)) as [v Hv].
  { unfold demod_value.
    destruct (proj2 (get1_is_ok s' (R * m - p))) as [sk ->]; [lia |].
    destruct (proj2 (get1_is_ok y m)) as [ym ->]; [lia |]. apply is_ok_Ok. }
  rewrite Hv. simpl.
  destruct (set2_wf_ok c p m v) as [c' Hc'].
  - by eapply same_shape_wf.
  - destruct Hc as (<- & _ & _). lia.
  - destruct Hc as (_ & <- & _). lia.
  - exists c'. split; [done |]. eapply same_shape_trans; [exact Hc |].
    by eapply set2_same_shape.
Qed.

End Demodulation.

(** ** The re-layout of [codefreq]: slicing and copying *)

Section Relayout.

Context {C : Type}.

Lemma slice_index (shape step i : Z) :
  0 <= shape -> step <> 0 -> 0 <= i < slice_len shape step ->
  0 <= slice_start shape step + i * step < shape.
Proof.
  intros Hs Hstep Hi. unfold slice_len, slice_start, slice_stop in *.
  destruct (Z.ltb_spec step 0) as [Hneg|Hpos].
  - set (d := -1 - (shape - 1)) in *.
    pose proof (Z.quot_rem' d step) as Hqr.
    pose proof (Z.rem_bound_neg_neg d step ltac:(lia) ltac:(lia)) as Hb.
    assert (0 <= d ÷ step) as Hq.
    { rewrite <- (Z.quot_opp_opp d step) by lia. apply Z.quot_pos; lia. }
    destruct (Z.eqb_spec (d - step * (d ÷ step)) 0);
      destruct (Z.ltb_spec (d ÷ step) 0); destruct (Z.ltb_spec (d ÷ step + 1) 0); nia.
  - pose proof (Z.quot_rem' (shape - 0) step) as Hqr.
    pose proof (Z.rem_bound_pos (shape - 0) step ltac:(lia) ltac:(lia)) as Hb.
    assert (0 <= (shape - 0) ÷ step) as Hq by (apply Z.quot_pos; lia).
    destruct (Z.eqb_spec (shape - 0 - step * ((shape - 0) ÷ step)) 0);
      destruct (Z.ltb_spec ((shape - 0) ÷ step) 0);
      destruct (Z.ltb_spec ((shape - 0) ÷ step + 1) 0); nia.
Qed.

(** The copy of a view of the extents of the destination whose elements
    are all read: every cell of the destination is assigned. *)
Lemma copy_contents_Ok (src : view2 C) (x : mview2 C) (g : Z -> Z -> C) :
  wf x -> vshape0 src = shape0 x -> vshape1 src = shape1 x ->
  (forall n p, 0 <= n < shape0 x -> 0 <= p < shape1 x -> vat src n p = Ok (g n p)) ->
  exists x',
    copy_contents src x = Ok x' /\ same_shape x x' /\
    forall n p, 0 <= n < shape0 x -> 0 <= p < shape1 x -> get2 x' n p = Ok (g n p).
Proof.
  intros Hwf H0 H1 Hsrc. unfold copy_contents, extent_ok, src_index.
  rewrite H0, H1, !Z.eqb_refl. simpl. unfold xrange.
  set (inner := fun n p b => v <- vat src n p ;; set2 (A := C) b n p v).
  set (outer := fun n b => for_each (seqZ 0 (shape1 x - 0)) (inner n) b).
  assert (forall n p b, 0 <= n < shape0 x -> 0 <= p < shape1 x -> same_shape x b ->
            exists b', inner n p b = Ok b' /\ fills (cell n p) g b b') as Hinner.
  { intros n p b Hn Hp Hb. unfold inner. rewrite Hsrc by done. simpl.
    destruct (set2_wf_ok b n p (g n p)) as [b' Hb'].
    - by eapply same_shape_wf.
    - destruct Hb as (<- & _ & _). done.
    - destruct Hb as (_ & <- & _). done.
    - exists b'. split; [done | by apply fills_set2]. }
  assert (forall n b, 0 <= n < shape0 x -> same_shape x b ->
            exists b', outer n b = Ok b' /\ same_shape x b') as Houter.
  { intros n b Hn Hb. unfold outer.
    apply (for_each_total (same_shape x)); [|done].
    intros p c Hp Hc. apply elem_of_seqZ in Hp.
    destruct (Hinner n p c) as (c' & Hc' & [Hs _]); [done | lia | done |].
    exists c'. split; [done | by eapply same_shape_trans]. }
  destruct (for_each_total (same_shape x) (seqZ 0 (shape0 x - 0)) outer) with (st := x)
    as (x' & Hx' & Hs); [| apply same_shape_refl |].
  - intros n b Hn Hb. apply elem_of_seqZ in Hn. apply Houter; [lia | done].
  - exists x'. split; [done |]. split; [done |].
    apply (for_each_fills
             (fun n i j => existsb (fun p => cell n p i j) (seqZ 0 (shape1 x - 0))) g) in Hx'.
    + destruct Hx' as [_ Hf]. intros n p Hn Hp. rewrite Hf.
      rewrite (existsb_seqZ _ 0 (shape0 x - 0) n); [done | lia |].
      apply (existsb_seqZ _ 0 (shape1 x - 0) p); [lia |].
      unfold cell. by rewrite !Z.eqb_refl.
    + intros n b b' Hn Hb. apply elem_of_seqZ in Hn. unfold outer in Hb.
      apply (for_each_fills (fun p => cell n p) g _ (inner n)); [|done].
      intros p c c' Hp Hc. apply elem_of_seqZ in Hp. unfold inner in Hc.
      rewrite Hsrc in Hc by lia. by apply fills_set2.
Qed.

End Relayout.

(** ** The scratch buffer across calls *)

Section Frame.

Context {S C : Type} `{Sc : Scalars S C}.

Variable uninit : nat -> C.

(** The cells of the first [d0] rows and [d1] columns that are outside the
    windows hold zero; [pad_zero]: all the cells outside the windows do. *)
Definition zero_outside (W : Z -> Z -> bool) (d0 d1 : Z) (a : mview2 C) : Prop :=
  forall i j, 0 <= i < d0 -> 0 <= j < d1 -> W i j = false -> get2 a i j = Ok czero.

Definition pad_zero (W : Z -> Z -> bool) (a : mview2 C) : Prop :=
  zero_outside W (shape0 a) (shape1 a) a.

Lemma agree_outside_pad_zero (W : Z -> Z -> bool) (a b : mview2 C) :
  agree_outside W a b -> pad_zero W a -> pad_zero W b.
Proof.
  intros [(H0 & H1 & _) Hout] Hz i j Hi Hj HW.
  rewrite <- Hout by done. apply Hz; [lia | lia | done].
Qed.

Lemma agree_outside_sym (W : Z -> Z -> bool) (a b : mview2 C) :
  agree_outside W a b -> agree_outside W b a.
Proof.
  intros [Hs Hout]. split; [by apply same_shape_sym |].
  intros i j HW. symmetry. by apply Hout.
Qed.

Lemma agree_outside_trans (W : Z -> Z -> bool) (a b c : mview2 C) :
  agree_outside W a b -> agree_outside W b c -> agree_outside W a c.
Proof.
  intros [Hs1 H1] [Hs2 H2]. split; [by eapply same_shape_trans |].
  intros i j HW. rewrite H1, H2; done.
Qed.

Lemma codefreq_Ok (s' : list S) (b b' : buffers C) (fft : FFTW C)
    (step N M R : Z) (y : list C) (x : mview2 C) :
  codefreq uninit s' b fft step N M R y = Ok (x, b') ->
  exists x0 src,
    PyArray_EMPTY uninit N (R * M) = Ok x0 /\
    demodulate s' (demodpad b) M R y = Ok (demodpad b') /\
    x_aligned b' = execute fft (demodpad b') /\
    slice_step (transpose (as_view (x_aligned b'))) step = Ok src /\
    copy_contents src x0 = Ok x.
Proof.
  unfold codefreq. intros H.
  apply bind_Ok_inv in H as (x0 & Hx0 & H). apply bind_Ok_inv in H as (dp & Hdp & H).
  apply bind_Ok_inv in H as (src & Hsrc & H). apply bind_Ok_inv in H as (x' & Hx' & H).
  injection H as <- <-. simpl. exists x0, src. done.
Qed.

(** A call that returns has changed the scratch buffer inside the windows
    only. *)
Lemma codefreq_agree_outside (s' : list S) (b b' : buffers C) (fft : FFTW C)
    (step N M R : Z) (y : list C) (x : mview2 C) :
  codefreq uninit s' b fft step N M R y = Ok (x, b') ->
  agree_outside (in_window M R (len s')) (demodpad b) (demodpad b').
Proof.
  intros H. apply codefreq_Ok in H as (x0 & src & _ & Hd & _).
  apply demodulate_fills in Hd as [Hs Hf]. split; [done |].
  intros i j HW. by rewrite Hf, HW.
Qed.

(** The outcome of a call depends on the scratch buffer through the cells
    outside the windows only. *)
Lemma codefreq_agree (s' : list S) (b c b' : buffers C) (fft : FFTW C)
    (step N M R : Z) (y : list C) (x : mview2 C) :
  wf (demodpad b) ->
  agree_outside (in_window M R (len s')) (demodpad b) (demodpad c) ->
  codefreq uninit s' b fft step N M R y = Ok (x, b') ->
  codefreq uninit s' c fft step N M R y = Ok (x, b').
Proof.
  intros Hwf Hagree H. unfold codefreq in *.
  destruct (PyArray_EMPTY uninit N (R * M)) as [x0|e]; simpl in *; [|done].
  destruct (demodulate s' (demodpad b) M R y) as [dp|e] eqn:Hd; simpl in *; [|done].
  by rewrite (demodulate_agree s' M R y _ _ _ Hwf Hagree Hd).
Qed.

(** C6.  A call of the callable of [CodeFreqCython] changes [demodpad]
    inside the support windows only: the cells outside them are as before
    the call, so that they hold zero after any call when they did before the
    first; and the outcome of the second of two calls in sequence, on [y1]
    and then on [y2], is the outcome of a call on [y2] from the buffers
    as they were before the first call, or from any buffers that agree with
    them outside the windows: nothing of [y1] is left in the result. *)
Theorem codefreq_frame (s : list S) (fft : FFTW C) (step N M R : Z)
    (y1 y2 : list C) (b0 b1 b2 : buffers C) (x1 x2 : mview2 C) :
  let call := CodeFreqCython uninit s fft step N M R in
  let W := in_window M R (len s) in
  wf (demodpad b0) ->
  call y1 b0 = Ok (x1, b1) ->
  call y2 b1 = Ok (x2, b2) ->
  agree_outside W (demodpad b0) (demodpad b1) /\
  agree_outside W (demodpad b1) (demodpad b2) /\
  (pad_zero W (demodpad b0) -> pad_zero W (demodpad b1) /\ pad_zero W (demodpad b2)) /\
  call y2 b0 = Ok (x2, b2) /\
  (forall b, agree_outside W (demodpad b0) (demodpad b) ->
     call y1 b = Ok (x1, b1) /\ call y2 b = Ok (x2, b2)).
Proof.
  intros call W Hwf H1 H2. unfold call, CodeFreqCython in *.
  set (s' := (fun a => over_sqrt N (np_conj a)) <$> s) in *.
  assert (len s' = len s) as HL by (unfold s', len; by rewrite length_fmap).
  assert (agree_outside W (demodpad b0) (demodpad b1)) as A01.
  { unfold W. rewrite <- HL. by eapply codefreq_agree_outside. }
  assert (agree_outside W (demodpad b1) (demodpad b2)) as A12.
  { unfold W. rewrite <- HL. by eapply codefreq_agree_outside. }
  assert (wf (demodpad b1)) as Hwf1.
  { destruct A01 as [Hs _]. by eapply same_shape_wf. }
  split; [done |]. split; [done |]. split.
  { intros Hz. split.
    - by eapply agree_outside_pad_zero.
    - eapply agree_outside_pad_zero; [exact A12 |]. by eapply agree_outside_pad_zero. }
  split.
  { eapply codefreq_agree; [exact Hwf1 | | exact H2].
    rewrite HL. by apply agree_outside_sym. }
  intros b Hb. split.
  - eapply codefreq_agree; [exact Hwf | | exact H1]. by rewrite HL.
  - eapply codefreq_agree; [exact Hwf1 | | exact H2]. rewrite HL.
    eapply agree_outside_trans; [apply agree_outside_sym; exact A01 | exact Hb].
Qed.

End Frame.

(** ** The formula of the specification

    [point_adjoint s dftmat R y n p] is the sum of section 4.2 of the
    specification, with the mathematical roundings in its bounds:
    the sum over ceil(p/R) <= m < min(M, floor((p + L - 1)/R) + 1) of
    conj(s)[R m - p] * dftmat[n, m] * y[m]. *)

Section Formula.

Context {S C : Type} `{Sc : Scalars S C}.

Definition list_sum (f : Z -> C) (l : list Z) : C :=
  foldr (fun m acc => cadd (f m) acc) czero l.

Definition big_sum (lo hi : Z) (f : Z -> C) : C := list_sum f (seqZ lo (hi - lo)).

(** The element of an array at an index of its extent. *)
Definition at1 (v : list C) (i : Z) : C := val (get1 v i).
Definition at2 (a : mview2 C) (i j : Z) : C := val (get2 a i j).

(** conj(s), as values of the signal type. *)
Definition conj_promoted (s : list S) : list C := (fun a => promote (np_conj a)) <$> s.

Definition point_term (s : list S) (dftmat : mview2 C) (R : Z) (y : list C)
    (n p m : Z) : C :=
  cmul (cmul (at1 (conj_promoted s) (R * m - p)) (at2 dftmat n m)) (at1 y m).

Definition point_adjoint (s : list S) (dftmat : mview2 C) (R : Z) (y : list C)
    (n p : Z) : C :=
  big_sum (ceil_div p R)
          (Z.min (shape1 dftmat) (floor_div (p + len s - 1) R + 1))
          (point_term s dftmat R y n p).

(** The linear combination [a * y1 + b * y2] of two signals, and of two
    images. *)
Definition axpby (a : C) (u : list C) (b : C) (v : list C) : list C :=
  zip_with (fun ui vi => cadd (cmul a ui) (cmul b vi)) u v.

Definition axpby2 (a : C) (u : mview2 C) (b : C) (v : mview2 C) : mview2 C :=
  MView2 (shape0 u) (shape1 u) (axpby a (data u) b (data v)).

(** The array of zeros. *)
Definition zeros1 (n : Z) : list C := replicate (Z.to_nat n) czero.
Definition zeros2 (d0 d1 : Z) : mview2 C := MView2 d0 d1 (replicate (Z.to_nat (d0 * d1)) czero).

(** What the claim on the equivalence of the two kernels assumes of the
    transform: the view [x_aligned.T[::step]] of its output has the extents
    [N] and [R M], and its element at [(n, p)] is the product of row [n] of
    sqrt(N) * dftmat with the first [M] elements of row [p] of the transformed
    buffer. *)
Definition transform_spec (dftmat : mview2 C) (sqrtN : C) (step N M R : Z)
    (dp xa : mview2 C) : Prop :=
  exists src,
    slice_step (transpose (as_view xa)) step = Ok src /\
    vshape0 src = N /\ vshape1 src = R * M /\
    forall n p, 0 <= n < N -> 0 <= p < R * M ->
      vat src n p =
      Ok (big_sum 0 M (fun m => cmul (cmul sqrtN (at2 dftmat n m)) (at2 dp p m))).

(** An executor that computes this very product, row by row, into a buffer
    of as many rows as its input and one column per row of the basis. *)
Definition tabulate2 (d0 d1 : Z) (f : Z -> Z -> C) : mview2 C :=
  MView2 d0 d1 ((fun k => f (k / d1) (k mod d1)) <$> seqZ 0 (d0 * d1)).

Definition basis_fft (dftmat : mview2 C) (sqrtN : C) (M : Z) : FFTW C :=
  {| execute := fun dp =>
       tabulate2 (shape0 dp) (shape0 dftmat) (fun p n =>
         big_sum 0 M (fun m => cmul (cmul sqrtN (at2 dftmat n m)) (at2 dp p m))) |}.

Lemma get2_tabulate2 (d0 d1 : Z) (f : Z -> Z -> C) (i j : Z) :
  0 <= i < d0 -> 0 <= j < d1 -> get2 (tabulate2 d0 d1 f) i j = Ok (f i j).
Proof.
  intros Hi Hj. apply get2_Ok. simpl. split; [done |]. split; [done |].
  unfold offset. simpl. rewrite list_lookup_fmap.
  rewrite lookup_seqZ_lt by (rewrite Z2Nat.id by nia; nia). simpl.
  rewrite Z2Nat.id by nia. f_equal. f_equal.
  - rewrite Z.add_0_l, Z.div_add_l by lia. rewrite Z.div_small by lia. lia.
  - rewrite Z.add_0_l, Z.add_comm, Z.mod_add by lia. apply Z.mod_small. lia.
Qed.

Lemma slice_step_one (v : view2 C) :
  0 <= vshape0 v ->
  slice_step v 1 = Ok (View2 (vshape0 v) (vshape1 v) (fun i j => vat v (0 + i * 1) j)).
Proof.
  intros H. unfold slice_step, slice_len, slice_start, slice_stop. simpl.
  rewrite Z.quot_1_r. replace (vshape0 v - 0 - 1 * (vshape0 v - 0)) with 0 by lia. simpl.
  destruct (Z.ltb_spec (vshape0 v - 0) 0); [lia |]. by rewrite Z.sub_0_r.
Qed.

Lemma basis_fft_spec (dftmat : mview2 C) (sqrtN : C) (M R : Z) (dp : mview2 C) :
  0 <= shape0 dftmat -> shape0 dp = R * M ->
  transform_spec dftmat sqrtN 1 (shape0 dftmat) M R dp (execute (basis_fft dftmat sqrtN M) dp).
Proof.
  intros HN Hdp. unfold transform_spec. eexists. split.
  - apply slice_step_one. simpl. done.
  - simpl. split; [done |]. split; [done |]. intros n p Hn Hp.
    rewrite Z.add_0_l, Z.mul_1_r. apply get2_tabulate2; lia.
Qed.

Lemma at1_lookup (v : list C) (i : Z) (a : C) :
  0 <= i -> v !! Z.to_nat i = Some a -> at1 v i = a.
Proof.
  intros Hi Hv. unfold at1.
  assert (get1 v i = Ok a) as ->; [|done].
  apply get1_Ok. split; [|done]. apply lookup_lt_Some in Hv. unfold len. lia.
Qed.

Lemma summand_val (s : list S) (dftmat : mview2 C) (R : Z) (y : list C) (n p m : Z) :
  is_ok (summand (np_conj <$> s) dftmat R y n p m) ->
  summand (np_conj <$> s) dftmat R y n p m = Ok (point_term s dftmat R y n p m).
Proof.
  intros [v Hv]. unfold summand in *.
  apply bind_Ok_inv in Hv as (sk & Hsk & Hv). apply bind_Ok_inv in Hv as (d & Hd & Hv).
  apply bind_Ok_inv in Hv as (ym & Hym & Hv). rewrite Hsk, Hd, Hym. simpl. f_equal.
  unfold point_term, at2, at1 at 2. rewrite Hd, Hym. simpl. f_equal. f_equal.
  apply get1_Ok in Hsk as [Hk Hsk]. symmetry. apply at1_lookup; [lia |].
  unfold conj_promoted. rewrite list_lookup_fmap in Hsk. rewrite list_lookup_fmap.
  destruct (s !! Z.to_nat (R * m - p)); simpl in *; congruence.
Qed.

End Formula.

(** ** The laws of exact arithmetic *)

Section Algebra.

Context {S C : Type} `{Sc : Scalars S C}.

Hypothesis Crt : ring_theory czero cone cadd cmul csub copp (@eq C).

Add Ring Cring : Crt.

Lemma list_sum_app (f : Z -> C) (l1 l2 : list Z) :
  list_sum f (l1 ++ l2) = cadd (list_sum f l1) (list_sum f l2).
Proof. induction l1 as [|m l1 IH]; simpl; [ring | rewrite IH; ring]. Qed.

Lemma sum_left_list_sum (f : Z -> C) (l : list Z) (a0 : C) :
  sum_left f l a0 = cadd a0 (list_sum f l).
Proof.
  revert a0. induction l as [|m l IH]; intros a0; unfold sum_left in *; simpl; [ring |].
  rewrite IH. ring.
Qed.

Lemma list_sum_ext (f g : Z -> C) (l : list Z) :
  (forall m, m ∈ l -> f m = g m) -> list_sum f l = list_sum g l.
Proof.
  induction l as [|m l IH]; intros H; simpl; [done |].
  rewrite H by left. rewrite IH; [done |]. intros k Hk. apply H. by right.
Qed.

Lemma list_sum_zero (f : Z -> C) (l : list Z) :
  (forall m, m ∈ l -> f m = czero) -> list_sum f l = czero.
Proof.
  induction l as [|m l IH]; intros H; simpl; [done |].
  rewrite H by left. rewrite IH; [ring |]. intros k Hk. apply H. by right.
Qed.

Lemma list_sum_axpby (a b : C) (f g : Z -> C) (l : list Z) :
  list_sum (fun m => cadd (cmul a (f m)) (cmul b (g m))) l =
  cadd (cmul a (list_sum f l)) (cmul b (list_sum g l)).
Proof. induction l as [|m l IH]; simpl; [ring | rewrite IH; ring]. Qed.

Lemma big_sum_ext (lo hi : Z) (f g : Z -> C) :
  (forall m, lo <= m < hi -> f m = g m) -> big_sum lo hi f = big_sum lo hi g.
Proof. intros H. apply list_sum_ext. intros m Hm. apply elem_of_seqZ in Hm. apply H. lia. Qed.

Lemma big_sum_zero (lo hi : Z) (f : Z -> C) :
  (forall m, lo <= m < hi -> f m = czero) -> big_sum lo hi f = czero.
Proof. intros H. apply list_sum_zero. intros m Hm. apply elem_of_seqZ in Hm. apply H. lia. Qed.

Lemma big_sum_empty (lo hi : Z) (f : Z -> C) : hi <= lo -> big_sum lo hi f = czero.
Proof. intros H. unfold big_sum. rewrite seqZ_nil by lia. done. Qed.

Lemma big_sum_split (lo mid hi : Z) (f : Z -> C) :
  lo <= mid <= hi -> big_sum lo hi f = cadd (big_sum lo mid f) (big_sum mid hi f).
Proof.
  intros H. unfold big_sum.
  replace (hi - lo) with ((mid - lo) + (hi - mid)) by lia.
  rewrite seqZ_app by lia. rewrite list_sum_app.
  by replace (lo + (mid - lo)) with mid by lia.
Qed.

Lemma big_sum_single (lo : Z) (f : Z -> C) : big_sum lo (lo + 1) f = f lo.
Proof.
  unfold big_sum. replace (lo + 1 - lo) with 1 by lia.
  rewrite seqZ_cons by lia. rewrite seqZ_nil by lia. simpl. ring.
Qed.

(** A sum whose terms vanish outside a window is the sum over the window. *)
Lemma big_sum_window (M lo hi : Z) (f : Z -> C) :
  0 <= lo -> hi <= M ->
  (forall m, 0 <= m < M -> ~ (lo <= m < hi) -> f m = czero) ->
  big_sum 0 M f = big_sum lo hi f.
Proof.
  intros Hlo Hhi Hz. destruct (Z.le_gt_cases hi lo) as [Hle|Hlt].
  - rewrite (big_sum_empty lo hi) by done. apply big_sum_zero. intros m Hm. apply Hz; lia.
  - rewrite (big_sum_split 0 lo M) by lia. rewrite (big_sum_split lo hi M) by lia.
    rewrite (big_sum_zero 0 lo), (big_sum_zero hi M); [ring | |];
      intros m Hm; apply Hz; lia.
Qed.

Variable uninit : nat -> C.

Lemma len_fmap {A B : Type} (f : A -> B) (l : list A) : len (f <$> l) = len l.
Proof. unfold len. by rewrite length_fmap. Qed.

(** With a waveform of at least one sample, every read is inside its
    array as soon as the signal has [M] samples or more. *)
Lemma reads_in_bounds_intro (s_conj : list S) (dftmat : mview2 C) (R ylen : Z) :
  wf dftmat -> 1 <= R -> 1 <= len s_conj -> shape1 dftmat <= ylen ->
  reads_in_bounds s_conj dftmat R ylen.
Proof using Type.
  intros Hwf HR HL Hy p n m Hp Hn Hm.
  apply window_iff in Hm; [|lia|lia|lia].
  split; [lia |]. split; [|lia]. apply get2_wf_ok; [done | lia | lia].
Qed.

(** The accumulated value is the sum of the specification, as soon as the
    numerator of the upper bound is not negative. *)
Lemma accumulate_formula (s : list S) (dftmat : mview2 C) (R : Z) (y : list C) (n p : Z) :
  0 <= p -> 1 <= R -> 0 <= p + len s - 1 ->
  is_ok (accumulate (np_conj <$> s) dftmat R y n p) ->
  val (accumulate (np_conj <$> s) dftmat R y n p) = point_adjoint s dftmat R y n p.
Proof using Crt.
  intros Hp HR HL Hok. pose proof Hok as [v Hv]. rewrite Hv. simpl.
  apply accumulate_val in Hv. rewrite Hv, sum_left_list_sum.
  pose proof (proj1 (accumulate_is_ok _ _ _ _ _ _) Hok) as Hsum. clear Hok.
  unfold point_adjoint. rewrite <- mstart_ceil, <- mstop_floor by lia.
  rewrite len_fmap.
  transitivity (big_sum (mstart p R) (mstop p R (len s) (shape1 dftmat))
                  (fun m => val (summand (np_conj <$> s) dftmat R y n p m))).
  { unfold big_sum. ring. }
  apply big_sum_ext. intros m Hm. rewrite summand_val; [done |].
  apply Hsum. by rewrite len_fmap.
Qed.

(** The direct sum computes the formula of the specification, for every
    waveform of at least one sample. *)
Lemma direct_sum_correct (s : list S) (dftmat : mview2 C) (R : Z) (y : list C) :
  wf dftmat -> 1 <= R -> 1 <= len s -> shape1 dftmat <= len y ->
  exists x,
    DirectSumCython uninit s dftmat R y = Ok x /\
    shape0 x = shape0 dftmat /\ shape1 x = R * shape1 dftmat /\ wf x /\
    forall n p, 0 <= n < shape0 dftmat -> 0 <= p < R * shape1 dftmat ->
      get2 x n p = Ok (point_adjoint s dftmat R y n p).
Proof using Crt.
  intros Hwf HR HL Hy. unfold DirectSumCython.
  assert (reads_in_bounds (np_conj <$> s) dftmat R (len y)) as Hr.
  { apply reads_in_bounds_intro; [done | done | by rewrite len_fmap | done]. }
  destruct Hwf as (Hn & Hm & Hl).
  destruct (proj2 (direct_sum_is_ok uninit (np_conj <$> s) dftmat R y)) as [x Hx].
  { split; [done |]. split; [nia | done]. }
  exists x. split; [done |].
  apply direct_sum_Ok in Hx as (H0 & H1 & Hwfx & Hget).
  repeat split; try done; try apply Hwfx.
  intros n p Hnn Hp. rewrite Hget by done. f_equal.
  apply accumulate_formula; [lia | lia | lia |].
  apply accumulate_is_ok. intros m Hmm. apply summand_is_ok. by apply Hr.
Qed.

(** *** A waveform of one sample *)

Lemma single_sample_window (p R M m : Z) :
  0 <= p -> 1 <= R ->
  mstart p R <= m < mstop p R 1 M <-> (p mod R = 0 /\ m = p / R /\ p / R < M).
Proof using Type.
  intros Hp HR. rewrite window_iff by lia. split.
  - intros (Hm & Hs). assert (p = m * R) as -> by lia.
    rewrite Z.mod_mul, Z.div_mul by lia. lia.
  - intros (Hmod & -> & Hlt).
    pose proof (Z.div_mod p R ltac:(lia)) as Hdm.
    assert (0 <= p / R) by (apply Z.div_pos; lia). lia.
Qed.

(** C7.  For a waveform of one sample, the window of the coordinate [p] is
    the single index [p / R] when [R] divides [p] (and [p / R < M]) and is
    empty otherwise; hence the column [p] of the direct sum is
    conj(s)[0] * dftmat[:, p / R] * y[p / R] when [R] divides [p] and is zero
    when it does not, at every coordinate from 0 to R M - 1. *)
Theorem single_sample_support (s : list S) (dftmat : mview2 C) (R : Z) (y : list C) :
  wf dftmat -> 1 <= R -> len s = 1 -> len y = shape1 dftmat ->
  (forall p m, 0 <= p ->
     mstart p R <= m < mstop p R (len s) (shape1 dftmat) <->
     (p mod R = 0 /\ m = p / R /\ p / R < shape1 dftmat)) /\
  exists x,
    DirectSumCython uninit s dftmat R y = Ok x /\
    shape0 x = shape0 dftmat /\ shape1 x = R * shape1 dftmat /\
    forall n p, 0 <= n < shape0 dftmat -> 0 <= p < R * shape1 dftmat ->
      get2 x n p =
      Ok (if p mod R =? 0
          then cmul (cmul (at1 (conj_promoted s) 0) (at2 dftmat n (p / R))) (at1 y (p / R))
          else czero).
Proof using Crt.
  intros Hwf HR HL Hy. split.
  { intros p m Hp. rewrite HL. by apply single_sample_window. }
  destruct (direct_sum_correct s dftmat R y) as (x & Hx & H0 & H1 & _ & Hget);
    [done | done | lia | lia |].
  exists x. repeat split; try done.
  intros n p Hn Hp. rewrite Hget by done. f_equal.
  unfold point_adjoint. rewrite <- mstart_ceil, <- mstop_floor by lia. rewrite HL.
  pose proof (fun m => single_sample_window p R (shape1 dftmat) m ltac:(lia) HR) as Hw.
  destruct (Z.eqb_spec (p mod R) 0) as [Hmod|Hmod].
  - assert (p / R < shape1 dftmat) as Hq.
    { apply Z.div_lt_upper_bound; lia. }
    destruct (proj2 (Hw (p / R))) as [Hlo Hhi]; [done |].
    assert (mstart p R = p / R) as ->.
    { destruct (proj1 (Hw (mstart p R))) as (_ & ? & _); [lia | done]. }
    assert (mstop p R 1 (shape1 dftmat) = p / R + 1) as ->.
    { destruct (proj1 (Hw (mstop p R 1 (shape1 dftmat) - 1))) as (_ & ? & _); lia. }
    rewrite big_sum_single. unfold point_term.
    pose proof (Z.div_mod p R ltac:(lia)).
    by replace (R * (p / R) - p) with 0 by lia.
  - apply big_sum_empty. apply Z.nlt_ge. intros Hlt.
    destruct (proj1 (Hw (mstart p R))) as (? & _); [lia | done].
Qed.

(** *** Linearity *)

Lemma len_axpby (a b : C) (u v : list C) : len (axpby a u b v) = Z.min (len u) (len v).
Proof using Type. unfold len, axpby. rewrite length_zip_with. lia. Qed.

Lemma get1_axpby (a b : C) (u v : list C) (i : Z) (ui vi : C) :
  get1 u i = Ok ui -> get1 v i = Ok vi ->
  get1 (axpby a u b v) i = Ok (cadd (cmul a ui) (cmul b vi)).
Proof using Type.
  intros [Hi Hu]%get1_Ok [Hi' Hv]%get1_Ok. apply get1_Ok.
  split; [rewrite len_axpby; lia |].
  unfold axpby. rewrite lookup_zip_with, Hu, Hv. done.
Qed.

Lemma get2_axpby2 (a b : C) (u v : mview2 C) (i j : Z) (ui vi : C) :
  shape1 u = shape1 v ->
  get2 u i j = Ok ui -> get2 v i j = Ok vi ->
  get2 (axpby2 a u b v) i j = Ok (cadd (cmul a ui) (cmul b vi)).
Proof using Type.
  intros Hs (Hi & Hj & Hu)%get2_Ok (Hi' & Hj' & Hv)%get2_Ok. apply get2_Ok.
  split; [done |]. split; [done |].
  unfold offset in *. simpl. rewrite <- Hs in Hv.
  unfold axpby. rewrite lookup_zip_with, Hu, Hv. done.
Qed.

Lemma summand_axpby (s_conj : list S) (dftmat : mview2 C) (R : Z)
    (a b : C) (y1 y2 : list C) (n p m : Z) :
  is_ok (summand s_conj dftmat R y1 n p m) ->
  is_ok (summand s_conj dftmat R y2 n p m) ->
  val (summand s_conj dftmat R (axpby a y1 b y2) n p m) =
  cadd (cmul a (val (summand s_conj dftmat R y1 n p m)))
       (cmul b (val (summand s_conj dftmat R y2 n p m))).
Proof using Crt.
  unfold summand. intros [v1 H1] [v2 H2].
  apply bind_Ok_inv in H1 as (sk & Hsk & H1). apply bind_Ok_inv in H1 as (d & Hd & H1).
  apply bind_Ok_inv in H1 as (u1 & Hu1 & _).
  rewrite Hsk, Hd in H2. simpl in H2. apply bind_Ok_inv in H2 as (u2 & Hu2 & _).
  rewrite Hsk, Hd, Hu1, Hu2, (get1_axpby a b y1 y2 m u1 u2 Hu1 Hu2). simpl. ring.
Qed.

(** C8.  The callable of [DirectSumCython] is linear: on the combination
    [a y1 + b y2] of two signals of length [M] it gives the combination of
    its results on [y1] and on [y2]; and it does return on such signals when
    the waveform has at least one sample. *)
Theorem direct_sum_linear (s : list S) (dftmat : mview2 C) (R : Z)
    (a b : C) (y1 y2 : list C) :
  len y1 = shape1 dftmat -> len y2 = shape1 dftmat ->
  DirectSumCython uninit s dftmat R (axpby a y1 b y2) =
    res_map2 (fun x1 x2 => axpby2 a x1 b x2)
      (DirectSumCython uninit s dftmat R y1) (DirectSumCython uninit s dftmat R y2)
  /\ (wf dftmat -> 1 <= R -> 1 <= len s ->
      is_ok (DirectSumCython uninit s dftmat R y1) /\
      is_ok (DirectSumCython uninit s dftmat R y2)).
Proof using Crt.
  intros Hy1 Hy2. split.
  2:{ intros Hwf HR HL.
      split; [destruct (direct_sum_correct s dftmat R y1) as (x & Hx & _)
             | destruct (direct_sum_correct s dftmat R y2) as (x & Hx & _)];
        try done; try lia; by exists x. }
  unfold DirectSumCython, res_map2.
  set (sc := np_conj <$> s).
  pose proof (direct_sum_is_ok uninit sc dftmat R y1) as Hok1.
  pose proof (direct_sum_is_ok uninit sc dftmat R y2) as Hok2.
  pose proof (direct_sum_is_ok uninit sc dftmat R (axpby a y1 b y2)) as Hok.
  rewrite len_axpby, Hy1, Hy2, Z.min_id in Hok. rewrite Hy1 in Hok1. rewrite Hy2 in Hok2.
  destruct (direct_sum uninit sc dftmat R y1) as [x1|e1] eqn:E1.
  - assert (is_ok (direct_sum uninit sc dftmat R y2)) as [x2 E2].
    { apply Hok2, Hok1, is_ok_Ok. }
    assert (is_ok (direct_sum uninit sc dftmat R (axpby a y1 b y2))) as [x E].
    { apply Hok, Hok1, is_ok_Ok. }
    rewrite E, E2. simpl. f_equal.
    destruct (proj1 Hok1 (is_ok_Ok _)) as (_ & _ & Hr).
    apply direct_sum_Ok in E as (H0 & H1 & Hwf & Hget).
    apply direct_sum_Ok in E1 as (H01 & H11 & Hwf1 & Hget1).
    apply direct_sum_Ok in E2 as (H02 & H12 & Hwf2 & Hget2).
    apply mview2_ext; [done | |].
    + destruct Hwf as (_ & _ & Hl), Hwf1 as (_ & _ & Hl1), Hwf2 as (_ & _ & Hl2).
      unfold same_shape, axpby2, axpby, len in *. simpl. rewrite length_zip_with.
      repeat split; try congruence. rewrite H01, H11, H02, H12 in *. lia.
    + intros n p Hn Hp. rewrite H0 in Hn. rewrite H1 in Hp.
      rewrite Hget by done.
      rewrite (get2_axpby2 a b x1 x2 n p _ _ ltac:(congruence)
                 (Hget1 n p Hn Hp) (Hget2 n p Hn Hp)).
      f_equal.
      assert (forall yy, reads_in_bounds sc dftmat R (len yy) ->
                is_ok (accumulate sc dftmat R yy n p)) as Hacc.
      { intros yy Hyy. apply accumulate_is_ok. intros m Hm. apply summand_is_ok. by apply Hyy. }
      assert (forall yy, reads_in_bounds sc dftmat R (len yy) ->
                val (accumulate sc dftmat R yy n p) =
                big_sum (mstart p R) (mstop p R (len sc) (shape1 dftmat))
                  (fun m => val (summand sc dftmat R yy n p m))) as Hval.
      { intros yy Hyy. destruct (Hacc yy Hyy) as [v Hv]. rewrite Hv. simpl.
        apply accumulate_val in Hv. rewrite Hv, sum_left_list_sum. unfold big_sum. ring. }
      rewrite !Hval by (rewrite ?len_axpby, ?Hy1, ?Hy2, ?Z.min_id; done).
      unfold big_sum. rewrite <- list_sum_axpby. apply list_sum_ext.
      intros m Hm. apply elem_of_seqZ in Hm.
      apply summand_axpby; apply summand_is_ok.
      * rewrite Hy1. apply Hr; [done | done | lia].
      * rewrite Hy2. apply Hr; [done | done | lia].
  - assert (~ is_ok (direct_sum uninit sc dftmat R y2)) as N2.
    { intros H. apply Hok2, Hok1 in H. by apply not_ok_Err in H. }
    assert (~ is_ok (direct_sum uninit sc dftmat R (axpby a y1 b y2))) as N.
    { intros H. apply Hok, Hok1 in H. by apply not_ok_Err in H. }
    destruct (direct_sum uninit sc dftmat R (axpby a y1 b y2)) as [x|e] eqn:E;
      [exfalso; apply N, is_ok_Ok |].
    simpl. apply direct_sum_Err in E, E1. congruence.
Qed.

(** *** The spectral kernel against the direct sum *)

Lemma in_window_true (M R L p m : Z) :
  in_window M R L p m = true <->
  0 <= p < R * M /\ mstart p R <= m < mstop p R L M.
Proof using Type.
  unfold in_window. rewrite !andb_true_iff, in_extent_true, Z.leb_le, Z.ltb_lt. lia.
Qed.

Lemma in_window_false (M R L p m : Z) :
  0 <= p < R * M -> in_window M R L p m = false <-> ~ (mstart p R <= m < mstop p R L M).
Proof using Type.
  intros Hp. rewrite <- not_true_iff_false, in_window_true. tauto.
Qed.

Lemma demod_value_val (s : list S) (N R : Z) (sqrtN : C) (y : list C) (p m : Z) (d : C) :
  (forall a, a ∈ s -> cmul sqrtN (promote (over_sqrt N (np_conj a))) = promote (np_conj a)) ->
  0 <= R * m - p < len s -> 0 <= m < len y ->
  cmul (cmul sqrtN d)
       (val (demod_value ((fun a => over_sqrt N (np_conj a)) <$> s) R y p m)) =
  cmul (cmul (at1 (conj_promoted s) (R * m - p)) d) (at1 y m).
Proof using Crt.
  intros Hsq Hk Hm. unfold demod_value.
  destruct (lookup_lt_is_Some_2 s (Z.to_nat (R * m - p))) as [a Ha]; [unfold len in Hk; lia |].
  assert (get1 ((fun a => over_sqrt N (np_conj a)) <$> s) (R * m - p) =
          Ok (over_sqrt N (np_conj a))) as ->.
  { apply get1_Ok. rewrite len_fmap, list_lookup_fmap, Ha. done. }
  destruct (proj2 (get1_is_ok y m) Hm) as [ym Hym]. rewrite Hym. simpl.
  rewrite (at1_lookup (conj_promoted s) (R * m - p) (promote (np_conj a))); [|lia|].
  2:{ unfold conj_promoted. by rewrite list_lookup_fmap, Ha. }
  unfold at1 at 1. rewrite Hym. simpl.
  rewrite <- (Hsq a) by (by eapply list_elem_of_lookup_2). ring.
Qed.

Lemma PyArray_EMPTY_wf (d0 d1 : Z) :
  0 <= d0 -> 0 <= d1 ->
  exists x0, PyArray_EMPTY uninit d0 d1 = Ok x0 /\ shape0 x0 = d0 /\ shape1 x0 = d1 /\ wf x0.
Proof using Type.
  intros H0 H1. destruct (PyArray_EMPTY_is_ok uninit d0 d1 H0 H1) as [x0 Hx0].
  exists x0. split; [done |]. apply PyArray_EMPTY_Ok in Hx0. tauto.
Qed.

(** C2, amended.  When the scratch buffer holds zero outside the support
    windows in its first [R M] rows and [M] columns, the waveform has at
    least one sample, and the executor produces, on the demodulated buffer,
    the product with sqrt(N) * dftmat (the factor 1 / sqrt(N) being exact on
    the samples of the waveform), the callable of [CodeFreqCython] and the
    callable of [DirectSumCython] return the same array on [y]. *)
Theorem codefreq_equals_direct_sum (s : list S) (dftmat : mview2 C) (fft : FFTW C)
    (step N M R : Z) (sqrtN : C) (y : list C) (b : buffers C) :
  wf dftmat -> shape0 dftmat = N -> shape1 dftmat = M ->
  1 <= R -> 1 <= len s -> len y = M ->
  wf (demodpad b) -> R * M <= shape0 (demodpad b) -> M <= shape1 (demodpad b) ->
  zero_outside (in_window M R (len s)) (R * M) M (demodpad b) ->
  (forall a, a ∈ s -> cmul sqrtN (promote (over_sqrt N (np_conj a))) = promote (np_conj a)) ->
  (forall dp',
     demodulate ((fun a => over_sqrt N (np_conj a)) <$> s) (demodpad b) M R y = Ok dp' ->
     transform_spec dftmat sqrtN step N M R dp' (execute fft dp')) ->
  exists x b',
    CodeFreqCython uninit s fft step N M R y b = Ok (x, b') /\
    DirectSumCython uninit s dftmat R y = Ok x.
Proof using Crt.
  intros Hwf HN HM HR HL Hy Hwfb Hb0 Hb1 Hpad Hsq Hfft.
  destruct (direct_sum_correct s dftmat R y Hwf HR HL ltac:(lia))
    as (xd & Hxd & Hd0 & Hd1 & Hwfd & Hgetd).
  unfold CodeFreqCython, codefreq.
  set (s' := (fun a => over_sqrt N (np_conj a)) <$> s) in *.
  assert (len s' = len s) as HLs by apply len_fmap.
  destruct Hwf as (HN0 & HM0 & _).
  destruct (PyArray_EMPTY_wf N (R * M)) as (x0 & -> & Hx00 & Hx01 & Hwf0); [lia | nia |].
  simpl.
  destruct (demodulate_is_ok s' M R y (demodpad b)) as [dp' Hdp']; try done; try lia.
  rewrite Hdp'. simpl.
  destruct (Hfft dp' Hdp') as (src & -> & Hs0 & Hs1 & Hsrc). simpl.
  destruct (copy_contents_Ok src x0
              (fun n p => big_sum 0 M (fun m => cmul (cmul sqrtN (at2 dftmat n m)) (at2 dp' p m))))
    as (x' & -> & Hsx & Hgetx); [done | congruence | congruence | |].
  { intros n p Hn Hp. apply Hsrc; lia. }
  simpl. exists x', (Buffers dp' (execute fft dp')). split; [done |].
  rewrite Hxd. f_equal. apply mview2_ext; [done | |].
  - destruct Hsx as (Hsx0 & Hsx1 & Hsxl).
    destruct Hwfd as (_ & _ & Hld), Hwf0 as (_ & _ & Hl0). unfold same_shape, len in *.
    repeat split; try congruence. rewrite <- Hsxl.
    assert (Z.of_nat (length (data xd)) = Z.of_nat (length (data x0))) by congruence. lia.
  - intros n p Hn Hp. rewrite Hd0 in Hn. rewrite Hd1 in Hp.
    rewrite Hgetd by done. rewrite Hgetx by lia. f_equal.
    unfold point_adjoint. rewrite <- mstart_ceil, <- mstop_floor by lia.
    apply demodulate_fills in Hdp' as [_ Hf].
    rewrite (big_sum_window M (mstart p R) (mstop p R (len s) M)).
    + rewrite HM. apply big_sum_ext. intros m Hm.
      assert (mstart p R <= m < mstop p R (len s) M) as Hw by done.
      apply window_iff in Hw; [|lia|lia|lia].
      symmetry. unfold point_term, at2 at 2. rewrite Hf, HLs.
      rewrite (proj2 (in_window_true M R (len s) p m)) by (split; [lia | done]). simpl.
      apply demod_value_val; [done | lia | lia].
    + apply mstart_nonneg; lia.
    + unfold mstop. lia.
    + intros m Hm Hout. unfold at2 at 2. rewrite Hf, HLs.
      rewrite (proj2 (in_window_false M R (len s) p m ltac:(lia))) by done.
      rewrite Hpad; [simpl; ring | lia | lia |].
      by apply in_window_false; [lia |].
Qed.

(** *** A signal of zeros *)

Lemma len_zeros1 (n : Z) : 0 <= n -> len (zeros1 n) = n.
Proof using Type. intros H. unfold len, zeros1. rewrite length_replicate. lia. Qed.

Lemma at1_zeros1 (n m : Z) : at1 (zeros1 n) m = czero.
Proof using Type.
  unfold at1. destruct (get1 (zeros1 n) m) as [v|e] eqn:E; [|done]. simpl.
  apply get1_Ok in E as [_ E]. unfold zeros1 in E.
  apply lookup_replicate in E as [-> _]. done.
Qed.

Lemma get2_zeros2 (d0 d1 i j : Z) :
  0 <= i < d0 -> 0 <= j < d1 -> get2 (zeros2 d0 d1) i j = Ok czero.
Proof using Type.
  intros Hi Hj. apply get2_Ok. simpl. split; [done |]. split; [done |].
  apply lookup_replicate_2.
  pose proof (offset_lt (zeros2 d0 d1) i j Hi Hj) as Ho. simpl in Ho. nia.
Qed.

Lemma zeros2_ext (x : mview2 C) (d0 d1 : Z) :
  wf x -> shape0 x = d0 -> shape1 x = d1 ->
  (forall n p, 0 <= n < d0 -> 0 <= p < d1 -> get2 x n p = Ok czero) ->
  x = zeros2 d0 d1.
Proof using Type.
  intros Hwf H0 H1 Hget. apply mview2_ext; [done | |].
  - destruct Hwf as (Hn0 & Hn1 & Hl). unfold same_shape, zeros2, len in *. simpl.
    rewrite length_replicate. repeat split; try done. rewrite <- H0, <- H1. lia.
  - intros i j Hi Hj. rewrite Hget, get2_zeros2; try done; lia.
Qed.

Lemma demod_value_zeros (s : list S) (N R M p m : Z) :
  (forall a, a ∈ s -> cmul (promote (over_sqrt N (np_conj a))) czero = czero) ->
  val (demod_value ((fun a => over_sqrt N (np_conj a)) <$> s) R (zeros1 M) p m) = czero.
Proof using Type.
  intros Hz. unfold demod_value. destruct (get1 _ (R * m - p)) as [sk|] eqn:Es; simpl; [|done].
  destruct (get1 (zeros1 M) m) as [ym|] eqn:E; simpl; [|done].
  apply get1_Ok in E as [_ E]. unfold zeros1 in E.
  apply lookup_replicate in E as [-> _].
  apply get1_Ok in Es as [_ Es]. rewrite list_lookup_fmap in Es.
  destruct (s !! Z.to_nat (R * m - p)) as [a|] eqn:Ea; simpl in Es; [|done].
  injection Es as <-. apply Hz. by eapply list_elem_of_lookup_2.
Qed.

(** The sum in the order of the loop, from zero, of terms [t] with
    [0 + t = 0]. *)
Lemma sum_left_zero (f : Z -> C) (l : list Z) :
  (forall m, m ∈ l -> cadd czero (f m) = czero) -> sum_left f l czero = czero.
Proof using Type.
  unfold sum_left. induction l as [|m l IH]; intros H; simpl; [done |].
  rewrite H by left. apply IH. intros k Hk. apply H. by right.
Qed.

(** C9, amended.  No law of arithmetic is assumed but what is stated.  For a
    waveform of at least one sample, the callable of [DirectSumCython] maps
    the signal of [M] zeros to the [N] by [R M] array of zeros, when
    [0 + v * 0 = 0] for every product [v] of a conjugated sample with an
    entry of the basis: so it is in exact arithmetic, and in floating point
    for the finite [v] (an infinite [v] gives [v * 0 = nan]).  So does the
    callable of [CodeFreqCython], when [v * 0 = 0] for every scaled sample
    [v = conj(s)[k] / sqrt(N)], the scratch buffer holds zero outside the
    support windows, the executor maps the buffer of zeros to a buffer of
    zeros, and the strided transpose of that output has the extents [N] and
    [R M]. *)
Theorem zero_input (s : list S) (dftmat : mview2 C) (R : Z) :
  wf dftmat -> 1 <= R -> 1 <= len s ->
  ((forall a d, a ∈ s -> d ∈ data dftmat ->
      cadd czero (cmul (cmul (promote (np_conj a)) d) czero) = czero) ->
   DirectSumCython uninit s dftmat R (zeros1 (shape1 dftmat)) =
     Ok (zeros2 (shape0 dftmat) (R * shape1 dftmat))) /\
  forall (fft : FFTW C) (step N M : Z) (b : buffers C) (a0 a1 : Z),
    (forall a, a ∈ s -> cmul (promote (over_sqrt N (np_conj a))) czero = czero) ->
    0 <= M ->
    wf (demodpad b) -> R * M <= shape0 (demodpad b) -> M <= shape1 (demodpad b) ->
    pad_zero (in_window M R (len s)) (demodpad b) ->
    execute fft (zeros2 (shape0 (demodpad b)) (shape1 (demodpad b))) =
      zeros2 a0 a1 ->
    a0 = R * M -> 0 <= a1 -> step <> 0 -> slice_len a1 step = N ->
    CodeFreqCython uninit s fft step N M R (zeros1 M) b =
      Ok (zeros2 N (R * M),
          Buffers (zeros2 (shape0 (demodpad b)) (shape1 (demodpad b)))
                  (zeros2 a0 a1)).
Proof using Type.
  intros Hwf HR HL. split.
  { intros Hz. pose proof Hwf as (HN0 & HM0 & Hl). unfold DirectSumCython.
    set (sc := np_conj <$> s).
    assert (reads_in_bounds sc dftmat R (len (zeros1 (shape1 dftmat)))) as Hr.
    { apply reads_in_bounds_intro;
        [done | done | unfold sc; by rewrite len_fmap | by rewrite len_zeros1]. }
    destruct (proj2 (direct_sum_is_ok uninit sc dftmat R (zeros1 (shape1 dftmat))))
      as [x Hx]; [split; [done |]; split; [nia | done] |].
    rewrite Hx. f_equal.
    apply direct_sum_Ok in Hx as (H0 & H1 & Hwfx & Hget).
    apply zeros2_ext; try done.
    intros n p Hn Hp. rewrite Hget by done. f_equal.
    assert (is_ok (accumulate sc dftmat R (zeros1 (shape1 dftmat)) n p)) as [v Hv].
    { apply accumulate_is_ok. intros m Hm. apply summand_is_ok. by apply Hr. }
    rewrite Hv. simpl. apply accumulate_val in Hv as ->.
    apply sum_left_zero. intros m Hm. apply elem_of_seqZ in Hm.
    destruct (proj2 (summand_is_ok sc dftmat R (zeros1 (shape1 dftmat)) n p m))
      as [t Ht]; [apply Hr; [done | done | lia] |].
    rewrite Ht. simpl. unfold summand in Ht.
    apply bind_Ok_inv in Ht as (sk & Hsk & Ht). apply bind_Ok_inv in Ht as (d & Hd & Ht).
    apply bind_Ok_inv in Ht as (ym & Hym & Ht). injection Ht as <-.
    apply get1_Ok in Hym as [_ Hym]. unfold zeros1 in Hym.
    apply lookup_replicate in Hym as [-> _].
    apply get1_Ok in Hsk as [_ Hsk]. unfold sc in Hsk. rewrite list_lookup_fmap in Hsk.
    destruct (s !! Z.to_nat (R * m - p)) as [a|] eqn:Ea; simpl in Hsk; [|done].
    injection Hsk as <-. apply get2_Ok in Hd as (_ & _ & Hd).
    apply Hz; by eapply list_elem_of_lookup_2. }
  intros fft step N M b a0 a1 Hz HM Hwfb Hb0 Hb1 Hpad Hexec Ha0 Ha1 Hstep HNs.
  assert (0 <= N) as HN.
  { rewrite <- HNs. unfold slice_len. destruct (_ <? 0) eqn:E; [done |].
    by apply Z.ltb_ge in E. }
  unfold CodeFreqCython, codefreq.
  set (s' := (fun a => over_sqrt N (np_conj a)) <$> s) in *.
  assert (len s' = len s) as HLs by apply len_fmap.
  destruct (PyArray_EMPTY_wf N (R * M)) as (x0 & -> & Hx00 & Hx01 & Hwf0); [lia | nia |].
  simpl.
  destruct (demodulate_is_ok s' M R (zeros1 M) (demodpad b))
    as [dp' Hdp']; try done; try lia.
  { by rewrite len_zeros1. }
  rewrite Hdp'. simpl.
  assert (dp' = zeros2 (shape0 (demodpad b)) (shape1 (demodpad b))) as ->.
  { apply demodulate_fills in Hdp' as [Hs Hf]. destruct Hs as (Hs0 & Hs1 & Hsl).
    apply zeros2_ext; [by eapply same_shape_wf | done | done |].
    intros i j Hi Hj. rewrite Hf, HLs.
    destruct (in_window M R (len s) i j) eqn:E; [f_equal; by apply demod_value_zeros |].
    by apply Hpad. }
  rewrite Hexec. unfold slice_step.
  destruct (Z.eqb_spec step 0) as [|_]; [done |]. simpl.
  match goal with |- context [copy_contents ?v x0] => set (src := v) end.
  destruct (copy_contents_Ok src x0 (fun _ _ => czero)) as (x' & -> & Hsx & Hgetx);
    [done | simpl; congruence | simpl; congruence | |].
  { intros n p Hn Hp. simpl. apply get2_zeros2; [lia |].
    apply slice_index; [done | done | lia]. }
  simpl. f_equal. f_equal.
  apply zeros2_ext; [by eapply same_shape_wf | | |].
  - destruct Hsx as (<- & _). done.
  - destruct Hsx as (_ & <- & _). done.
  - intros n p Hn Hp. apply Hgetx; lia.
Qed.

End Algebra.

(** ** The range of [Py_ssize_t]

    The embedding computes in [Z] and lets every allocation of non-negative
    extents succeed.  It is exact on the inputs on which the kernels compute
    no integer outside [Py_ssize_t] and the allocation is not refused for its
    size: [R * M] is not below -2^63, the waveform has fewer than 2^62
    samples, and the array of the non-zero extents among [N] and [R * M], at
    16 bytes an element, has fewer than 2^63 bytes.  The statements on which
    exception a call raises are restricted to these inputs. *)

Definition in_ssize (z : Z) : Prop := - 2 ^ 63 <= z < 2 ^ 63.

Definition exact_extents (L N M R : Z) : Prop :=
  - 2 ^ 63 <= R * M /\ L < 2 ^ 62 /\ 16 * (Z.max 1 N * Z.max 1 (R * M)) < 2 ^ 63.

(** On these inputs the extent [R * M] and the integers of the loops
    (lines 70-81 and 122-131) are inside [Py_ssize_t]. *)
Lemma exact_extents_loops (L N M R p m : Z) :
  exact_extents L N M R -> 0 <= L -> 1 <= R ->
  0 <= p < R * M -> 0 <= m < M ->
  in_ssize (R * M) /\ in_ssize (p - 1 + R) /\ in_ssize (p + L - 1) /\ in_ssize (R * m - p).
Proof.
  unfold exact_extents, in_ssize. intros (Hlo & HL & Hsz) HL0 HR Hp Hm.
  assert (1 <= M) by lia. assert (R <= R * M) by nia. assert (0 <= R * m <= R * M) by nia.
  assert (R * M < 2 ^ 59) by lia. lia.
Qed.

(** ** The length of the signal is not checked *)

Section SignalLength.

Context {S C : Type} `{Sc : Scalars S C}.

Variable uninit : nat -> C.

Lemma get1_take (v : list C) (k : nat) (i : Z) :
  (k <= length v)%nat -> i < Z.of_nat k -> get1 (take k v) i = get1 v i.
Proof.
  intros Hk Hi. unfold get1, len. rewrite length_take, Nat.min_l by done.
  destruct (Z.leb_spec 0 i); simpl; [|done].
  destruct (Z.ltb_spec i (Z.of_nat k)); [|lia].
  destruct (Z.ltb_spec i (Z.of_nat (length v))); [|lia].
  by rewrite lookup_take_lt by lia.
Qed.

Lemma direct_sum_take (s_conj : list S) (dftmat : mview2 C) (R : Z) (y : list C) :
  0 <= shape1 dftmat <= len y ->
  direct_sum uninit s_conj dftmat R (take (Z.to_nat (shape1 dftmat)) y) =
  direct_sum uninit s_conj dftmat R y.
Proof.
  intros Hy. unfold direct_sum.
  destruct (PyArray_EMPTY uninit _ _) as [x0|e]; simpl; [|done].
  unfold prange, xrange. apply for_each_ext. intros p x _.
  apply for_each_ext. intros n x' _. f_equal.
  apply for_each_ext. intros m xnp Hm. apply elem_of_seqZ in Hm.
  rewrite get1_take; [done | unfold len in Hy; lia | lia].
Qed.

(** C5, amended.  The callable of [DirectSumCython] does not check the
    length of the signal, for [R >= 1] and extents inside the range of
    [Py_ssize_t].  On a signal of [M] samples or more, its outcome is that
    on the first [M] samples, and it returns an [N] by [R M] array when the
    waveform has at least one sample.  On a shorter signal, with a waveform
    of at least one sample and a basis of at least one row, the iteration
    [m = len y] of the column [p = R * len y] is run: it reads [y[len y]],
    outside the signal, and that read is not checked.  On no signal, longer
    or shorter, does the call raise [ValueError]. *)
Theorem signal_length_unchecked (s : list S) (dftmat : mview2 C) (R : Z) (y : list C) :
  wf dftmat -> 1 <= R ->
  exact_extents (len s) (shape0 dftmat) (shape1 dftmat) R ->
  (shape1 dftmat <= len y ->
     DirectSumCython uninit s dftmat R y =
       DirectSumCython uninit s dftmat R (take (Z.to_nat (shape1 dftmat)) y) /\
     (1 <= len s ->
      exists x, DirectSumCython uninit s dftmat R y = Ok x /\
                shape0 x = shape0 dftmat /\ shape1 x = R * shape1 dftmat)) /\
  (len y < shape1 dftmat -> 1 <= len s -> 1 <= shape0 dftmat ->
     0 <= R * len y < R * shape1 dftmat /\
     mstart (R * len y) R <= len y < mstop (R * len y) R (len s) (shape1 dftmat) /\
     DirectSumCython uninit s dftmat R y = Err OutOfBounds) /\
  DirectSumCython uninit s dftmat R y <> Err ValueError.
Proof.
  intros Hwf HR _. pose proof Hwf as (HN & HM & _).
  assert (DirectSumCython uninit s dftmat R y <> Err ValueError) as Hno.
  { unfold DirectSumCython. intros H. apply direct_sum_Err in H.
    destruct (Z.ltb_spec (shape0 dftmat) 0); [lia |].
    destruct (Z.ltb_spec (R * shape1 dftmat) 0); [nia |]. discriminate. }
  split; [|split; [|exact Hno]].
  - intros Hy. unfold DirectSumCython. split.
    + symmetry. apply direct_sum_take. lia.
    + intros HL.
      destruct (proj2 (direct_sum_is_ok uninit (np_conj <$> s) dftmat R y)) as [x Hx].
      { split; [done |]. split; [nia |].
        apply reads_in_bounds_intro; [done | done | by rewrite len_fmap | done]. }
      exists x. split; [done |].
      by apply direct_sum_Ok in Hx as (H0 & H1 & _).
  - intros Hy HL HN1.
    assert (0 <= len y) as Hy0 by (unfold len; lia).
    assert (mstart (R * len y) R <= len y < mstop (R * len y) R (len s) (shape1 dftmat))
      as Hw by (apply window_iff; [nia | lia | nia | lia]).
    split; [nia |]. split; [exact Hw |].
    unfold DirectSumCython in *.
    destruct (direct_sum uninit (np_conj <$> s) dftmat R y) as [x|e] eqn:E.
    + exfalso.
      destruct (proj1 (direct_sum_is_ok uninit (np_conj <$> s) dftmat R y))
        as (_ & _ & Hr); [by exists x |].
      destruct (Hr (R * len y) 0 (len y)) as (_ & _ & Hlt);
        [nia | lia | by rewrite len_fmap | lia].
    + destruct e; [by destruct Hno | done].
Qed.

End SignalLength.

(** ** Waveforms of at least one sample

    What the kernels guarantee when the waveform is not empty. *)

Section NonEmptyWaveform.

Context {S C : Type} `{Sc : Scalars S C}.

Hypothesis Crt : ring_theory czero cone cadd cmul csub copp (@eq C).

Variable uninit : nat -> C.

(** X1 (C1 for the waveforms of at least one sample).  For a waveform of
    at least one sample, the callable of [DirectSumCython] returns, on a
    signal of [M] samples, the [N] by [R M] array of the sums of the
    specification. *)
Theorem direct_sum_formula (s : list S) (dftmat : mview2 C) (R : Z) (y : list C) :
  wf dftmat -> 1 <= R -> 1 <= len s -> len y = shape1 dftmat ->
  exists x,
    DirectSumCython uninit s dftmat R y = Ok x /\
    shape0 x = shape0 dftmat /\ shape1 x = R * shape1 dftmat /\
    forall n p, 0 <= n < shape0 dftmat -> 0 <= p < R * shape1 dftmat ->
      get2 x n p = Ok (point_adjoint s dftmat R y n p).
Proof using Crt.
  intros Hwf HR HL Hy.
  destruct (direct_sum_correct Crt uninit s dftmat R y) as (x & Hx & H0 & H1 & _ & Hget);
    [done | done | done | lia |].
  exists x. done.
Qed.

(** X2 (C3 for [L >= 1]).  For [p >= 0], [R >= 1] and [L >= 1], the bounds
    that the kernels compute are the mathematical ones, and the window is
    exactly the set of the indices [m] of the signal with [R m - p] inside
    the waveform. *)
Theorem support_window_exact (p R L M : Z) :
  0 <= p -> 1 <= R -> 1 <= L ->
  mstart p R = ceil_div p R /\
  mstop p R L M = Z.min M (floor_div (p + L - 1) R + 1) /\
  forall m, mstart p R <= m < mstop p R L M <-> (0 <= m < M /\ 0 <= R * m - p <= L - 1).
Proof using Type.
  intros Hp HR HL. split; [by apply mstart_ceil |]. split; [apply mstop_floor; lia |].
  intros m. apply window_iff; lia.
Qed.

(** X3 (C4 for the waveforms of at least one sample).  For a waveform of at
    least one sample and a signal of [M] samples, every index of the loops
    is inside its array, and neither kernel loop faults: the direct sum
    returns, and the demodulation returns on every buffer of at least [R M]
    rows and [M] columns. *)
Theorem kernels_in_bounds (s_conj : list S) (dftmat : mview2 C) (R : Z) (y : list C) :
  wf dftmat -> 1 <= R -> 1 <= len s_conj -> len y = shape1 dftmat ->
  (forall p m, 0 <= p < R * shape1 dftmat ->
     mstart p R <= m < mstop p R (len s_conj) (shape1 dftmat) ->
     0 <= R * m - p <= len s_conj - 1 /\ 0 <= m < shape1 dftmat) /\
  is_ok (direct_sum uninit s_conj dftmat R y) /\
  (forall demodpad, wf demodpad ->
     R * shape1 dftmat <= shape0 demodpad -> shape1 dftmat <= shape1 demodpad ->
     is_ok (demodulate s_conj demodpad (shape1 dftmat) R y)).
Proof using Type.
  intros Hwf HR HL Hy. pose proof Hwf as (HN & HM & _). split; [|split].
  - intros p m Hp Hm. apply window_iff in Hm; lia.
  - apply direct_sum_is_ok. split; [done |]. split; [nia |].
    apply reads_in_bounds_intro; [done | done | done | lia].
  - intros dp Hdp H0 H1. apply demodulate_is_ok; try done. lia.
Qed.

End NonEmptyWaveform.

(** ** Evaluations on the Gaussian integers *)

Module Examples.

Import Gauss.

Ltac concrete :=
  repeat split; first [ lia | reflexivity | vm_compute; congruence ].

(** The 2-point Fourier basis, and the first two columns of the 4-point one. *)
Definition dft2 : mview2 Gauss.t := MView2 2 2 [(1, 0); (1, 0); (1, 0); (-1, 0)].

Definition dft4 : mview2 Gauss.t :=
  MView2 4 2 [(1, 0); (1, 0); (1, 0); (0, -1); (1, 0); (-1, 0); (1, 0); (0, 1)].

(** Waveforms of one and of two samples; signals of two samples, and one of
    three. *)
Definition s1 : list Gauss.t := [(0, 1)].
Definition s2 : list Gauss.t := [(2, 0); (0, 2)].
Definition y2 : list Gauss.t := [(1, 0); (3, 1)].
Definition y2' : list Gauss.t := [(0, 1); (-2, 0)].
Definition y3 : list Gauss.t := [(1, 0); (3, 0); (3, 3)].

(** An executor for [N = 4], [M = 2]: sqrt(4) = 2. *)
Definition fft4 : FFTW Gauss.t := basis_fft dft4 (2, 0) 2.

(** Scratch buffers for [R = 2], [M = 2]: all zeros, and with a value left
    at [demodpad[1, 0]], outside the window of row 1. *)
Definition clean : buffers Gauss.t := Buffers (zeros2 4 4) (zeros2 4 4).

Definition stale : buffers Gauss.t :=
  Buffers (MView2 4 2 [(0, 0); (0, 0); (5, 0); (0, 0); (0, 0); (0, 0); (0, 0); (0, 0)])
          (zeros2 4 4).

(** C10 on a 2 by 2 basis with [R = 2], for the schedule 3, 1, 0, 2. *)
Lemma direct_sum_deterministic_witness :
  direct_sum_scheduled junk (np_conj <$> s2) dft2 2 y2 [3; 1; 0; 2] =
    DirectSumCython junk s2 dft2 2 y2
  /\ (forall p x x',
        direct_sum_task (np_conj <$> s2) dft2 2 y2 p x = Ok x' ->
        (forall n q, q <> p -> get2 x' n q = get2 x n q) /\
        (forall n, 0 <= n < shape0 dft2 ->
           get2 x' n p =
           Ok (sum_left (fun m => val (summand (np_conj <$> s2) dft2 2 y2 n p m))
                 (seqZ (mstart p 2)
                    (mstop p 2 (len (np_conj <$> s2)) (shape1 dft2) - mstart p 2))
                 czero)))
  /\ (forall x,
        DirectSumCython junk s2 dft2 2 y2 = Ok x ->
        NoDup (target <$> run_stores (np_conj <$> s2) dft2 2 y2) /\
        forall ev, ev ≡ₚ run_stores (np_conj <$> s2) dft2 2 y2 ->
          exists x0,
            PyArray_EMPTY junk (shape0 dft2) (2 * shape1 dft2) = Ok x0 /\
            replay ev x0 = Ok x).
Proof.
  apply (direct_sum_deterministic junk s2 dft2 2 y2 [3; 1; 0; 2]).
  vm_compute. apply (bool_decide_unpack _). vm_compute. reflexivity.
Defined.

(** C7 for the waveform [s1] of one sample, with [R = 2] and [M = 2]. *)
Lemma single_sample_support_witness :
  (forall p m, 0 <= p ->
     mstart p 2 <= m < mstop p 2 (len s1) (shape1 dft2) <->
     (p mod 2 = 0 /\ m = p / 2 /\ p / 2 < shape1 dft2)) /\
  exists x,
    DirectSumCython junk s1 dft2 2 y2 = Ok x /\
    shape0 x = shape0 dft2 /\ shape1 x = 2 * shape1 dft2 /\
    forall n p, 0 <= n < shape0 dft2 -> 0 <= p < 2 * shape1 dft2 ->
      get2 x n p =
      Ok (if p mod 2 =? 0
          then cmul (cmul (at1 (conj_promoted s1) 0) (at2 dft2 n (p / 2))) (at1 y2 (p / 2))
          else czero).
Proof.
  apply (single_sample_support ring_laws junk s1 dft2 2 y2); concrete.
Defined.

(** C8 for the combination [2 y2 + i y2']. *)
Lemma direct_sum_linear_witness :
  DirectSumCython junk s2 dft2 2 (axpby (2, 0) y2 (0, 1) y2') =
    res_map2 (fun x1 x2 => axpby2 (2, 0) x1 (0, 1) x2)
      (DirectSumCython junk s2 dft2 2 y2) (DirectSumCython junk s2 dft2 2 y2')
  /\ (wf dft2 -> 1 <= 2 -> 1 <= len s2 ->
      is_ok (DirectSumCython junk s2 dft2 2 y2) /\
      is_ok (DirectSumCython junk s2 dft2 2 y2')).
Proof.
  apply (direct_sum_linear ring_laws junk s2 dft2 2 (2, 0) (0, 1) y2 y2'); concrete.
Defined.

(** The executor [fft4] produces the product with 2 * [dft4] on every
    buffer of four rows, and the division by sqrt(4) is exact on [s2]. *)
Lemma fft4_spec (dp : mview2 Gauss.t) :
  shape0 dp = 2 * 2 -> transform_spec dft4 (2, 0) 1 4 2 2 dp (execute fft4 dp).
Proof. intros H. apply (basis_fft_spec dft4 (2, 0) 2 2 dp); [simpl; lia | done]. Qed.

Lemma sqrt4_exact (a : Gauss.t) :
  a ∈ s2 -> cmul (2, 0) (promote (over_sqrt 4 (np_conj a))) = promote (np_conj a).
Proof.
  intros Ha. unfold s2 in Ha.
  repeat (apply elem_of_cons in Ha as [->|Ha]; [reflexivity |]).
  by apply elem_of_nil in Ha.
Qed.

(** C2, amended, on the buffers of zeros, with [N = 4], [M = 2], [R = 2]. *)
Lemma codefreq_equals_direct_sum_witness :
  exists x b',
    CodeFreqCython junk s2 fft4 1 4 2 2 y2 clean = Ok (x, b') /\
    DirectSumCython junk s2 dft4 2 y2 = Ok x.
Proof.
  apply (codefreq_equals_direct_sum ring_laws junk s2 dft4 fft4 1 4 2 2 (2, 0) y2 clean);
    try solve [concrete].
  - intros i j Hi Hj _. apply get2_zeros2; lia.
  - apply sqrt4_exact.
  - intros dp' Hdp'. apply fft4_spec.
    apply demodulate_fills in Hdp' as [(Hs0 & _) _]. by rewrite <- Hs0.
Defined.

(** C2 as stated fails when the scratch buffer holds a stale value outside
    the windows: the executor does produce the product with 2 * dft4 on
    every buffer, the division by sqrt(4) is exact on the samples, and yet
    the two callables return different arrays. *)
Lemma codefreq_stale_pad :
  (forall dp, shape0 dp = 2 * 2 -> transform_spec dft4 (2, 0) 1 4 2 2 dp (execute fft4 dp)) /\
  (forall a, a ∈ s2 ->
     cmul (2, 0) (promote (over_sqrt 4 (np_conj a))) = promote (np_conj a)) /\
  exists xc b' xd,
    CodeFreqCython junk s2 fft4 1 4 2 2 y2 stale = Ok (xc, b') /\
    DirectSumCython junk s2 dft4 2 y2 = Ok xd /\
    get2 xc 0 1 = Ok (12, -6) /\ get2 xd 0 1 = Ok (2, -6) /\ xc <> xd.
Proof.
  split; [apply fft4_spec |]. split; [apply sqrt4_exact |].
  do 3 eexists. split; [vm_compute; reflexivity |]. split; [vm_compute; reflexivity |].
  split; [reflexivity |]. split; [reflexivity |]. discriminate.
Qed.

(** In the Gaussian integers [0 + v * 0 = 0] and [v * 0 = 0]. *)
Lemma mul_zero (v : Gauss.t) : cadd czero (cmul v czero) = czero /\ cmul v czero = czero.
Proof.
  destruct v as [a b]. unfold cadd, cmul, czero. simpl. unfold Gauss.add, Gauss.mul. simpl.
  split; f_equal; lia.
Qed.

(** C9, amended, on the buffers of zeros. *)
Lemma zero_input_witness :
  DirectSumCython junk s2 dft4 2 (zeros1 2) = Ok (zeros2 4 (2 * 2)) /\
  CodeFreqCython junk s2 fft4 1 4 2 2 (zeros1 2) clean =
    Ok (zeros2 4 (2 * 2), Buffers (zeros2 4 4) (zeros2 4 4)).
Proof.
  destruct (zero_input junk s2 dft4 2) as [Hd Hc];
    [concrete | concrete | concrete |].
  split; [apply Hd; intros a d _ _; apply mul_zero |].
  apply (Hc fft4 1 4 2 clean 4 4); try solve [concrete].
  - intros a _. apply mul_zero.
  - intros i j Hi Hj _. apply get2_zeros2; [exact Hi | exact Hj].
Defined.

(** C9 as stated fails for [CodeFreqCython] when the scratch buffer holds a
    stale value outside the windows: the executor maps the buffer of zeros to
    a buffer of zeros, and the signal of zeros is not mapped to zeros. *)
Lemma zero_input_stale_pad :
  execute fft4 (zeros2 4 2) = zeros2 4 4 /\
  exists x b',
    CodeFreqCython junk s2 fft4 1 4 2 2 (zeros1 2) stale = Ok (x, b') /\
    get2 x 0 1 = Ok (10, 0) /\ x <> zeros2 4 (2 * 2).
Proof.
  split; [reflexivity |].
  do 2 eexists. split; [vm_compute; reflexivity |]. split; [reflexivity | discriminate].
Qed.

(** C5, amended, on the signal [y3] of three samples, for [M = 2]. *)
Lemma signal_length_unchecked_witness :
  (shape1 dft2 <= len y3 ->
     DirectSumCython junk s1 dft2 2 y3 =
       DirectSumCython junk s1 dft2 2 (take (Z.to_nat (shape1 dft2)) y3) /\
     (1 <= len s1 ->
      exists x, DirectSumCython junk s1 dft2 2 y3 = Ok x /\
                shape0 x = shape0 dft2 /\ shape1 x = 2 * shape1 dft2)) /\
  (len y3 < shape1 dft2 -> 1 <= len s1 -> 1 <= shape0 dft2 ->
     0 <= 2 * len y3 < 2 * shape1 dft2 /\
     mstart (2 * len y3) 2 <= len y3 < mstop (2 * len y3) 2 (len s1) (shape1 dft2) /\
     DirectSumCython junk s1 dft2 2 y3 = Err OutOfBounds) /\
  DirectSumCython junk s1 dft2 2 y3 <> Err ValueError.
Proof.
  apply (signal_length_unchecked junk s1 dft2 2 y3); concrete.
Defined.

(** C5 as stated fails: on a signal of three samples, for [M = 2], the call
    does not fail; it returns the array computed from the first two
    samples. *)
Lemma signal_too_long_accepted :
  len y3 <> shape1 dft2 /\
  DirectSumCython junk s1 dft2 2 y3 =
    Ok (MView2 2 4 [(0, -1); (0, 0); (0, -3); (0, 0); (0, -1); (0, 0); (0, 3); (0, 0)]).
Proof. split; [vm_compute; congruence | reflexivity]. Qed.

(** C6 for two calls in sequence, on [y2] and then on [y2'], from buffers
    that hold a stale value outside the windows. *)
Lemma codefreq_frame_witness :
  exists x1 b1 x2 b2,
    CodeFreqCython junk s2 fft4 1 4 2 2 y2 stale = Ok (x1, b1) /\
    CodeFreqCython junk s2 fft4 1 4 2 2 y2' b1 = Ok (x2, b2) /\
    agree_outside (in_window 2 2 (len s2)) (demodpad stale) (demodpad b1) /\
    agree_outside (in_window 2 2 (len s2)) (demodpad b1) (demodpad b2) /\
    (pad_zero (in_window 2 2 (len s2)) (demodpad stale) ->
     pad_zero (in_window 2 2 (len s2)) (demodpad b1) /\
     pad_zero (in_window 2 2 (len s2)) (demodpad b2)) /\
    CodeFreqCython junk s2 fft4 1 4 2 2 y2' stale = Ok (x2, b2) /\
    (forall b, agree_outside (in_window 2 2 (len s2)) (demodpad stale) (demodpad b) ->
       CodeFreqCython junk s2 fft4 1 4 2 2 y2 b = Ok (x1, b1) /\
       CodeFreqCython junk s2 fft4 1 4 2 2 y2' b = Ok (x2, b2)).
Proof.
  do 4 eexists. split; [vm_compute; reflexivity |]. split; [vm_compute; reflexivity |].
  apply (codefreq_frame junk s2 fft4 1 4 2 2 y2 y2' stale); concrete.
Defined.

(** *** The empty waveform

    For [L = 0], [R = 2], [p = 0] the numerator [p + L - 1] of the upper
    bound is -1, and the division of C truncates -1 / 2 to 0, where the
    floor is -1. *)

(** C3 at the empty waveform: the computed upper bound is 1, the bound of
    the specification is 0; the computed window holds [m = 0], for which
    [R m - p = 0] is outside the waveform. *)
Theorem empty_waveform_window :
  mstart 0 2 = ceil_div 0 2 /\
  mstop 0 2 0 2 = 1 /\
  Z.min 2 (floor_div (0 + 0 - 1) 2 + 1) = 0 /\
  mstart 0 2 <= 0 < mstop 0 2 0 2 /\
  ~ (0 <= 2 * 0 - 0 <= 0 - 1).
Proof. repeat split; try reflexivity; try discriminate. lia. Qed.

(** C4 at the empty waveform: both kernel loops read [s_conj[0]] outside
    the empty waveform, on a signal of [M = 2] samples. *)
Theorem empty_waveform_out_of_bounds :
  len y2 = shape1 dft2 /\
  get1 (@nil Gauss.t) (2 * 0 - 0) = Err OutOfBounds /\
  direct_sum junk [] dft2 2 y2 = Err OutOfBounds /\
  demodulate [] (zeros2 4 2) 2 2 y2 = Err OutOfBounds.
Proof. repeat split. Qed.

(** C1 at the empty waveform: the sum of the specification is the empty
    sum at every coordinate, and the callable of [DirectSumCython] returns no
    array: it reads outside the waveform. *)
Theorem empty_waveform_direct_sum :
  (forall n p, point_adjoint [] dft2 2 y2 n p = czero) /\
  DirectSumCython junk [] dft2 2 y2 = Err OutOfBounds.
Proof.
  split; [|reflexivity]. intros n p. unfold point_adjoint, big_sum.
  rewrite seqZ_nil; [done |]. simpl.
  change (len (@nil Gauss.t)) with 0.
  assert (floor_div (p + 0 - 1) 2 + 1 <= ceil_div p 2); [|lia].
  unfold floor_div, ceil_div.
  pose proof (Z.div_mod (p + 0 - 1) 2 ltac:(lia)).
  pose proof (Z.mod_pos_bound (p + 0 - 1) 2 ltac:(lia)).
  pose proof (Z.div_mod (- p) 2 ltac:(lia)).
  pose proof (Z.mod_pos_bound (- p) 2 ltac:(lia)). lia.
Qed.

(** X1, X2 and X3 on the waveform [s2] of two samples. *)
Lemma direct_sum_formula_witness :
  exists x,
    DirectSumCython junk s2 dft2 2 y2 = Ok x /\
    shape0 x = shape0 dft2 /\ shape1 x = 2 * shape1 dft2 /\
    forall n p, 0 <= n < shape0 dft2 -> 0 <= p < 2 * shape1 dft2 ->
      get2 x n p = Ok (point_adjoint s2 dft2 2 y2 n p).
Proof. apply (direct_sum_formula ring_laws junk s2 dft2 2 y2); concrete. Defined.

Lemma support_window_exact_witness :
  mstart 3 2 = ceil_div 3 2 /\
  mstop 3 2 2 4 = Z.min 4 (floor_div (3 + 2 - 1) 2 + 1) /\
  forall m, mstart 3 2 <= m < mstop 3 2 2 4 <-> (0 <= m < 4 /\ 0 <= 2 * m - 3 <= 2 - 1).
Proof. apply (support_window_exact 3 2 2 4); lia. Defined.

Lemma kernels_in_bounds_witness :
  (forall p m, 0 <= p < 2 * shape1 dft2 ->
     mstart p 2 <= m < mstop p 2 (len s2) (shape1 dft2) ->
     0 <= 2 * m - p <= len s2 - 1 /\ 0 <= m < shape1 dft2) /\
  is_ok (direct_sum junk s2 dft2 2 y2) /\
  (forall demodpad, wf demodpad ->
     2 * shape1 dft2 <= shape0 demodpad -> shape1 dft2 <= shape1 demodpad ->
     is_ok (demodulate s2 demodpad (shape1 dft2) 2 y2)).
Proof. apply (kernels_in_bounds junk s2 dft2 2 y2); concrete. Defined.

End Examples.

(** * Further properties of the kernels *)

(** ** The direct sum: when it returns, its edges, fresh memory *)

Section DirectSumEdges.

Context {S C : Type} `{Sc : Scalars S C}.

Variable uninit : nat -> C.

Lemma quot_minus_one (R : Z) : 2 <= R -> (-1) ÷ R = 0.
Proof.
  intros HR. change (-1) with (- (1)). rewrite Z.quot_opp_l by lia.
  rewrite Z.quot_small by lia. done.
Qed.

(** When the embedded call has no fault, for a basis of at least one row
    and one column and [R >= 1]; and its only fault is the access outside an
    array. *)
Lemma direct_sum_is_ok_iff (s : list S) (dftmat : mview2 C) (R : Z) (y : list C) :
  wf dftmat -> 1 <= R -> 1 <= shape0 dftmat -> 1 <= shape1 dftmat ->
  (is_ok (DirectSumCython uninit s dftmat R y) <->
     (1 <= len s /\ shape1 dftmat <= len y) \/ (len s = 0 /\ R = 1)) /\
  (forall e, DirectSumCython uninit s dftmat R y = Err e -> e = OutOfBounds).
Proof.
  intros Hwf HR HN HM. unfold DirectSumCython. split.
  - rewrite direct_sum_is_ok. split.
    + intros (_ & _ & Hr).
      assert (0 <= len s) as HL0 by (unfold len; lia).
      destruct (Z.eq_dec (len s) 0) as [HL|HL].
      * right. split; [done |].
        destruct (Z.eq_dec R 1) as [|HR1]; [done | exfalso].
        destruct (Hr 0 0 0) as (Hk & _); [nia | lia | | rewrite len_fmap in Hk; lia].
        rewrite len_fmap, HL.
        assert (mstart 0 R = 0) as -> by (unfold mstart; apply Z.quot_small; lia).
        assert (mstop 0 R 0 (shape1 dftmat) = 1) as ->; [|lia].
        unfold mstop. replace (0 + 0 - 1) with (-1) by lia.
        rewrite quot_minus_one by lia. lia.
      * left. split; [lia |].
        destruct (Hr (R * (shape1 dftmat - 1)) 0 (shape1 dftmat - 1)) as (_ & _ & Hy);
          [nia | lia | | lia].
        rewrite len_fmap. apply window_iff; [nia | lia | nia | lia].
    + intros [[HL Hy]|[HL ->]].
      * split; [lia |]. split; [nia |].
        apply reads_in_bounds_intro; [done | done | by rewrite len_fmap | done].
      * split; [lia |]. split; [lia |]. intros p n m Hp Hn Hm. exfalso.
        unfold mstart, mstop in Hm. rewrite len_fmap, HL, !Z.quot_1_r in Hm. lia.
  - intros e He. apply direct_sum_Err in He.
    destruct (Z.ltb_spec (shape0 dftmat) 0); [lia |].
    destruct (Z.ltb_spec (R * shape1 dftmat) 0); [nia | done].
Qed.

(** X4.  For a basis of at least one row and one column, [R >= 1] and
    extents inside the range of [Py_ssize_t], every access of the callable of
    [DirectSumCython] is inside its array, and the call returns an [N] by
    [R M] array, when the waveform has at least one sample and the signal at
    least [M], or when the waveform is empty and [R = 1].  In every other
    case an iteration [(p, m)] of the loops reads [s_conj[R m - p]] or
    [y[m]] outside the array; that read is not checked, and [OutOfBounds]
    stands for the undefined behaviour of the call from there on. *)
Theorem direct_sum_safe_iff (s : list S) (dftmat : mview2 C) (R : Z) (y : list C) :
  wf dftmat -> 1 <= R -> 1 <= shape0 dftmat -> 1 <= shape1 dftmat ->
  exact_extents (len s) (shape0 dftmat) (shape1 dftmat) R ->
  ((1 <= len s /\ shape1 dftmat <= len y) \/ (len s = 0 /\ R = 1) ->
     reads_in_bounds (np_conj <$> s) dftmat R (len y) /\
     exists x, DirectSumCython uninit s dftmat R y = Ok x /\
               shape0 x = shape0 dftmat /\ shape1 x = R * shape1 dftmat) /\
  (~ ((1 <= len s /\ shape1 dftmat <= len y) \/ (len s = 0 /\ R = 1)) ->
     DirectSumCython uninit s dftmat R y = Err OutOfBounds /\
     exists p m,
       0 <= p < R * shape1 dftmat /\
       mstart p R <= m < mstop p R (len s) (shape1 dftmat) /\
       ~ (0 <= R * m - p < len s /\ 0 <= m < len y)).
Proof.
  intros Hwf HR HN HM _.
  destruct (direct_sum_is_ok_iff s dftmat R y Hwf HR HN HM) as [Hiff Herr].
  split.
  - intros Hc. apply Hiff in Hc as [x Hx]. unfold DirectSumCython in *. split.
    + by apply (direct_sum_is_ok uninit (np_conj <$> s) dftmat R y); exists x.
    + exists x. split; [done |]. by apply direct_sum_Ok in Hx as (H0 & H1 & _).
  - intros Hc. split.
    + destruct (DirectSumCython uninit s dftmat R y) as [x|e] eqn:E.
      * destruct Hc. apply Hiff. by exists x.
      * f_equal. by apply Herr.
    + assert (0 <= len s) as HL0 by (unfold len; lia).
      assert (0 <= len y) as Hy0 by (unfold len; lia).
      destruct (Z.eq_dec (len s) 0) as [HL|HL].
      * exists 0, 0. split; [nia |]. rewrite HL. split; [|lia].
        assert (R <> 1) by (intros ->; apply Hc; by right).
        assert (mstart 0 R = 0) as -> by (unfold mstart; apply Z.quot_small; lia).
        assert (mstop 0 R 0 (shape1 dftmat) = 1) as ->; [|lia].
        unfold mstop. replace (0 + 0 - 1) with (-1) by lia.
        rewrite quot_minus_one by lia. lia.
      * assert (len y < shape1 dftmat) as Hy by lia.
        exists (R * len y), (len y). split; [nia |]. split; [|lia].
        apply window_iff; [nia | lia | nia | lia].
Qed.

(** X5.  In an array that the callable of [DirectSumCython] returns, the
    columns [p] beyond [R (M - 1)], the last [R - 1] ones, hold zero: no
    sample of the signal reaches these delays, whatever the waveform. *)
Theorem trailing_columns_zero (s : list S) (dftmat : mview2 C) (R : Z) (y : list C)
    (x : mview2 C) (n p : Z) :
  DirectSumCython uninit s dftmat R y = Ok x ->
  0 <= n < shape0 dftmat -> 0 <= p -> R * (shape1 dftmat - 1) < p < R * shape1 dftmat ->
  get2 x n p = Ok czero.
Proof.
  intros Hx Hn Hp0 Hp. unfold DirectSumCython in Hx.
  apply direct_sum_Ok in Hx as (_ & _ & _ & Hget). rewrite Hget by lia. f_equal.
  unfold accumulate, xrange. rewrite seqZ_nil; [done |].
  assert (shape1 dftmat <= mstart p R); [|unfold mstop; lia].
  unfold mstart. apply Z.quot_le_lower_bound; nia.
Qed.

Lemma for_each_skip {St : Type} (l : list Z) (body : Z -> St -> res St) (st : St) :
  (forall k, k ∈ l -> body k st = Ok st) -> for_each l body st = Ok st.
Proof.
  induction l as [|k l IH]; intros H; simpl; [done |].
  rewrite H by left. simpl. apply IH. intros k' Hk'. apply H. by right.
Qed.

(** X6.  The degenerate extents, inside the range of [Py_ssize_t].  A
    negative [R] (with [M >= 1]) makes the allocation of the output raise
    [ValueError]; with [R = 0] or [M = 0] the callable returns the empty [N]
    by 0 array; with [N = 0] it returns the empty 0 by [R M] array, and reads
    nothing: it returns for every waveform, the empty one too, and every
    signal. *)
Theorem direct_sum_degenerate (s : list S) (dftmat : mview2 C) (R : Z) (y : list C) :
  wf dftmat ->
  exact_extents (len s) (shape0 dftmat) (shape1 dftmat) R ->
  (R * shape1 dftmat < 0 -> DirectSumCython uninit s dftmat R y = Err ValueError) /\
  (R * shape1 dftmat = 0 ->
     DirectSumCython uninit s dftmat R y = Ok (MView2 (shape0 dftmat) 0 [])) /\
  (shape0 dftmat = 0 -> 0 <= R * shape1 dftmat ->
     DirectSumCython uninit s dftmat R y = Ok (MView2 0 (R * shape1 dftmat) [])).
Proof.
  intros (HN & HM & _) _. unfold DirectSumCython.
  split; [|split]; intros H; rewrite direct_sum_tasks; unfold direct_sum_scheduled, PyArray_EMPTY.
  - destruct (Z.ltb_spec (shape0 dftmat) 0); [lia |].
    destruct (Z.ltb_spec (R * shape1 dftmat) 0); [done | lia].
  - rewrite H. destruct (Z.ltb_spec (shape0 dftmat) 0); [lia |]. simpl.
    by rewrite Z.mul_0_r.
  - intros HK. rewrite H.
    destruct (Z.ltb_spec (R * shape1 dftmat) 0); [lia |]. simpl.
    apply for_each_skip. intros p _. rewrite direct_sum_task_eq, H. done.
Qed.

(** X7.  What the fresh output array holds before the loops is never
    observed (source, lines 63 and 66: every entry is set): the outcome of
    the callable of [DirectSumCython] is the same for any two contents of the
    uninitialised memory. *)
Theorem direct_sum_ignores_uninit (uninit' : nat -> C)
    (s : list S) (dftmat : mview2 C) (R : Z) (y : list C) :
  DirectSumCython uninit s dftmat R y = DirectSumCython uninit' s dftmat R y.
Proof.
  unfold DirectSumCython. set (sc := np_conj <$> s).
  pose proof (direct_sum_is_ok uninit sc dftmat R y) as H1.
  pose proof (direct_sum_is_ok uninit' sc dftmat R y) as H2.
  destruct (direct_sum uninit sc dftmat R y) as [x1|e1] eqn:E1,
           (direct_sum uninit' sc dftmat R y) as [x2|e2] eqn:E2.
  - f_equal. apply direct_sum_Ok in E1 as (H10 & H11 & Hwf1 & Hg1).
    apply direct_sum_Ok in E2 as (H20 & H21 & Hwf2 & Hg2).
    apply mview2_ext; [done | |].
    + destruct Hwf1 as (_ & _ & Hl1), Hwf2 as (_ & _ & Hl2). unfold same_shape, len in *.
      repeat split; try congruence.
      assert (Z.of_nat (length (data x1)) = Z.of_nat (length (data x2))) by congruence. lia.
    + intros n p Hn Hp. rewrite Hg1, Hg2; try done; congruence.
  - exfalso. eapply not_ok_Err. apply H2, H1, is_ok_Ok.
  - exfalso. eapply not_ok_Err. apply H1, H2, is_ok_Ok.
  - f_equal. apply direct_sum_Err in E1, E2. congruence.
Qed.

End DirectSumEdges.

(** ** The spectral kernel: demodulated buffer, re-layout, outcomes *)

Section CodeFreqOutcome.

Context {S C : Type} `{Sc : Scalars S C}.

Variable uninit : nat -> C.

Lemma for_each_Ok_each {St : Type} (l : list Z) (body : Z -> St -> res St) (st st' : St) :
  for_each l body st = Ok st' -> forall k, k ∈ l -> exists a a', body k a = Ok a'.
Proof.
  revert st. induction l as [|i l IH]; intros st H k Hk; [by apply elem_of_nil in Hk |].
  simpl in H. apply bind_Ok_inv in H as (st1 & H1 & H2).
  apply elem_of_cons in Hk as [->|Hk]; [eauto | by eapply IH].
Qed.

(** When the demodulation returns: exactly when, at every cell inside the
    windows, the two reads and the store are inside their arrays. *)
Lemma demodulate_is_ok_iff (s' : list S) (M R : Z) (y : list C) (a : mview2 C) :
  is_ok (demodulate s' a M R y) <->
  forall p m, in_window M R (len s') p m = true ->
    is_ok (demod_value s' R y p m) /\ is_ok (set2 a p m czero).
Proof.
  rewrite demodulate_rows. unfold prange, xrange.
  rewrite (for_each_ok_iff (demodulate_row s' M R y) (demodulate_row_shape s' M R y)
             (demodulate_row_transfer s' M R y) _ a a (same_shape_refl a)).
  assert (forall p, is_ok (demodulate_row s' M R y p a) <->
            forall m, mstart p R <= m < mstop p R (len s') M ->
              is_ok (demod_value s' R y p m) /\ is_ok (set2 a p m czero)) as Hrow.
  { intros p. rewrite demodulate_row_eq. unfold xrange.
    rewrite (for_each_ok_iff (fun m a => v <- demod_value s' R y p m ;; set2 a p m v)
               (demod_cell_shape s' R y p) (demod_cell_transfer s' R y p) _ a a
               (same_shape_refl a)).
    split.
    - intros H m Hm. destruct (H m) as [a' Ha']; [apply elem_of_seqZ; lia |].
      apply bind_Ok_inv in Ha' as (v & Hv & Hs). split; [by exists v |].
      apply set2_is_ok. apply (set2_is_ok a p m v). by exists a'.
    - intros H m Hm. apply elem_of_seqZ in Hm. destruct (H m) as [[v Hv] Hs]; [lia |].
      rewrite Hv. simpl. apply set2_is_ok. by apply (set2_is_ok a p m czero). }
  split.
  - intros H p m Hw. apply in_window_true in Hw as [Hp Hm].
    apply (proj1 (Hrow p)); [|done]. apply H. apply elem_of_seqZ. lia.
  - intros H p Hp. apply elem_of_seqZ in Hp. apply Hrow. intros m Hm.
    apply H. apply in_window_true. split; [lia | done].
Qed.


(** The copy, in general: what it needs to return and what it assigns. *)
Lemma copy_contents_inv (src : view2 C) (x x' : mview2 C) :
  copy_contents src x = Ok x' ->
  extent_ok (vshape0 src) (shape0 x) = true /\
  extent_ok (vshape1 src) (shape1 x) = true /\
  same_shape x x' /\
  forall n p, 0 <= n < shape0 x -> 0 <= p < shape1 x ->
    exists v,
      vat src (src_index (vshape0 src) (shape0 x) n)
              (src_index (vshape1 src) (shape1 x) p) = Ok v /\
      get2 x' n p = Ok v.
Proof.
  unfold copy_contents.
  destruct (extent_ok (vshape0 src) (shape0 x)) eqn:E0; simpl; [|done].
  destruct (extent_ok (vshape1 src) (shape1 x)) eqn:E1; simpl; [|done].
  unfold xrange.
  set (si0 n := src_index (vshape0 src) (shape0 x) n).
  set (si1 p := src_index (vshape1 src) (shape1 x) p).
  set (inner := fun n p b => v <- vat src (si0 n) (si1 p) ;; set2 (A := C) b n p v).
  set (outer := fun n b => for_each (seqZ 0 (shape1 x - 0)) (inner n) b).
  intros H. split; [done |]. split; [done |].
  assert (forall n p b b', inner n p b = Ok b' ->
            fills (cell n p) (fun n p => val (vat src (si0 n) (si1 p))) b b') as Hin.
  { intros n p b b' Hb. unfold inner in Hb. apply bind_Ok_inv in Hb as (v & Hv & Hs).
    eapply fills_ext; [done | | apply (fills_set2 (fun _ _ => v)); exact Hs].
    intros i j Hc. unfold cell in Hc.
    apply andb_true_iff in Hc as [->%Z.eqb_eq ->%Z.eqb_eq]. by rewrite Hv. }
  pose proof H as Hfill.
  apply (for_each_fills
           (fun n i j => existsb (fun p => cell n p i j) (seqZ 0 (shape1 x - 0)))
           (fun n p => val (vat src (si0 n) (si1 p)))) in Hfill.
  2:{ intros n b b' _ Hb. unfold outer in Hb.
      apply (for_each_fills (fun p => cell n p) _ _ (inner n)); [|done].
      intros p c c' _. apply Hin. }
  destruct Hfill as [Hs Hf]. split; [done |].
  intros n p Hn Hp.
  destruct (for_each_Ok_each _ _ _ _ H n) as (b1 & b2 & Hb); [apply elem_of_seqZ; lia |].
  destruct (for_each_Ok_each _ _ _ _ Hb p) as (c1 & c2 & Hc); [apply elem_of_seqZ; lia |].
  unfold inner in Hc. apply bind_Ok_inv in Hc as (v & Hv & _).
  exists v. split; [done |]. rewrite Hf.
  rewrite (existsb_seqZ _ 0 (shape0 x - 0) n); [by rewrite Hv | lia |].
  apply (existsb_seqZ _ 0 (shape1 x - 0) p); [lia |].
  unfold cell. by rewrite !Z.eqb_refl.
Qed.

Lemma copy_contents_total (src : view2 C) (x : mview2 C) :
  wf x ->
  extent_ok (vshape0 src) (shape0 x) = true ->
  extent_ok (vshape1 src) (shape1 x) = true ->
  (forall n p, 0 <= n < shape0 x -> 0 <= p < shape1 x ->
     is_ok (vat src (src_index (vshape0 src) (shape0 x) n)
                    (src_index (vshape1 src) (shape1 x) p))) ->
  is_ok (copy_contents src x).
Proof.
  intros Hwf E0 E1 Hsrc. unfold copy_contents. rewrite E0, E1. simpl. unfold xrange.
  destruct (for_each_total (same_shape x) (seqZ 0 (shape0 x - 0))
              (fun n x0 => for_each (seqZ 0 (shape1 x - 0))
                 (fun p x1 =>
                    v <- vat src (src_index (vshape0 src) (shape0 x) n)
                                 (src_index (vshape1 src) (shape1 x) p) ;;
                    set2 x1 n p v) x0)) with (st := x)
    as (x' & Hx' & _); [| apply same_shape_refl | by exists x'].
  intros n b Hn Hb. apply elem_of_seqZ in Hn.
  apply (for_each_total (same_shape x)); [|done].
  intros p c Hp Hc. apply elem_of_seqZ in Hp.
  destruct (Hsrc n p) as [v Hv]; [lia | lia |]. rewrite Hv. simpl.
  destruct (set2_wf_ok c n p v) as [c' Hc'].
  - by eapply same_shape_wf.
  - destruct Hc as (<- & _ & _). lia.
  - destruct Hc as (_ & <- & _). lia.
  - exists c'. split; [done |]. eapply same_shape_trans; [exact Hc |].
    by eapply set2_same_shape.
Qed.

Lemma copy_contents_Err (src : view2 C) (x : mview2 C) (e : fault) :
  (forall i j e, vat src i j = Err e -> e = OutOfBounds) ->
  copy_contents src x = Err e ->
  e = if extent_ok (vshape0 src) (shape0 x) && extent_ok (vshape1 src) (shape1 x)
      then OutOfBounds else ValueError.
Proof.
  intros Hvat. unfold copy_contents.
  destruct (extent_ok _ _ && extent_ok _ _); [|congruence].
  unfold xrange. apply for_each_Err. intros n a e' H.
  revert H. apply for_each_Err. intros p c e'' H.
  apply bind_Err_inv in H as [H|(v & _ & H)]; [by eapply Hvat | by eapply set2_Err].
Qed.

(** The copy does not depend on what its destination holds. *)
Lemma copy_contents_fresh (src : view2 C) (x1 x2 : mview2 C) :
  wf x1 -> same_shape x1 x2 ->
  (forall i j e, vat src i j = Err e -> e = OutOfBounds) ->
  copy_contents src x1 = copy_contents src x2.
Proof.
  intros Hwf1 Hs Hvat. pose proof (same_shape_wf _ _ Hs Hwf1) as Hwf2.
  pose proof Hs as (H0 & H1 & _).
  assert (forall xa xb, wf xb -> shape0 xa = shape0 xb -> shape1 xa = shape1 xb ->
            is_ok (copy_contents src xa) -> is_ok (copy_contents src xb)) as Htr.
  { intros xa xb Hwfb Ha0 Ha1 [xa' Ha']. apply copy_contents_inv in Ha' as (E0 & E1 & _ & Hg).
    apply copy_contents_total; [done | congruence | congruence |].
    intros n p Hn Hp. rewrite <- Ha0, <- Ha1 in *. destruct (Hg n p Hn Hp) as (v & Hv & _).
    by exists v. }
  destruct (copy_contents src x1) as [x1'|e1] eqn:E1, (copy_contents src x2) as [x2'|e2] eqn:E2.
  - f_equal. apply copy_contents_inv in E1 as (_ & _ & Hs1 & Hg1).
    apply copy_contents_inv in E2 as (_ & _ & Hs2 & Hg2).
    apply mview2_ext.
    + by eapply same_shape_wf.
    + eapply same_shape_trans; [apply same_shape_sym; exact Hs1 |].
      eapply same_shape_trans; [exact Hs | exact Hs2].
    + intros n p Hn Hp. destruct Hs1 as (Hs10 & Hs11 & _). rewrite <- Hs10 in Hn. rewrite <- Hs11 in Hp.
      destruct (Hg1 n p Hn Hp) as (v1 & Hv1 & ->).
      destruct (Hg2 n p ltac:(lia) ltac:(lia)) as (v2 & Hv2 & ->).
      rewrite <- H0, <- H1 in Hv2. congruence.
  - exfalso. eapply not_ok_Err. rewrite <- E2. apply (Htr x1 x2); [done | done | done |].
    rewrite E1. apply is_ok_Ok.
  - exfalso. eapply not_ok_Err. rewrite <- E1. apply (Htr x2 x1); [done | done | done |].
    rewrite E2. apply is_ok_Ok.
  - f_equal. apply copy_contents_Err in E1, E2; try done. rewrite E1, E2, H0, H1. done.
Qed.

Lemma relayout_vat_Err (xa : mview2 C) (step : Z) (src : view2 C) (i j : Z) (e : fault) :
  slice_step (transpose (as_view xa)) step = Ok src -> vat src i j = Err e -> e = OutOfBounds.
Proof.
  unfold slice_step. destruct (step =? 0); [done |]. intros [= <-]. simpl.
  apply get2_Err.
Qed.

(** X9.  Every entry of the output of [codefreq] is assigned by the final
    copy (source, lines 114 and 117), so what the fresh array holds is never
    observed: the outcome of the callable of [CodeFreqCython], array and
    buffers, is the same for any two contents of the uninitialised memory. *)
Theorem codefreq_ignores_uninit (uninit' : nat -> C) (s : list S) (fft : FFTW C)
    (step N M R : Z) (y : list C) (b : buffers C) :
  CodeFreqCython uninit s fft step N M R y b = CodeFreqCython uninit' s fft step N M R y b.
Proof.
  unfold CodeFreqCython, codefreq.
  destruct (PyArray_EMPTY uninit N (R * M)) as [x1|e1] eqn:E1,
           (PyArray_EMPTY uninit' N (R * M)) as [x2|e2] eqn:E2; simpl.
  - destruct (demodulate _ (demodpad b) M R y) as [dp|]; simpl; [|done].
    destruct (slice_step _ step) as [src|] eqn:Es; simpl; [|done].
    apply PyArray_EMPTY_Ok in E1 as (_ & _ & H10 & H11 & Hwf1).
    apply PyArray_EMPTY_Ok in E2 as (_ & _ & H20 & H21 & Hwf2).
    rewrite (copy_contents_fresh src x1 x2); [done | done | |].
    + destruct Hwf1 as (_ & _ & Hl1), Hwf2 as (_ & _ & Hl2). unfold same_shape, len in *.
      repeat split; try congruence.
      assert (Z.of_nat (length (data x1)) = Z.of_nat (length (data x2))) by congruence. lia.
    + intros i j e. by apply (relayout_vat_Err _ _ _ _ _ _ Es).
  - unfold PyArray_EMPTY in *. destruct (_ || _); congruence.
  - unfold PyArray_EMPTY in *. destruct (_ || _); congruence.
  - unfold PyArray_EMPTY in *. destruct (_ || _); congruence.
Qed.

(** X10.  The re-layout of a call that returns: the array has the extents
    [N] and [R M], [x_aligned] holds what the executor made of the
    demodulated [demodpad], [step] is not zero, and row [n] of the array is
    the column of index [start + n step] of [x_aligned], where [start] is 0
    for a positive [step] and the last column for a negative one (an extent
    of 1 of the strided transpose being repeated along the array). *)
Theorem codefreq_relayout (s : list S) (fft : FFTW C) (step N M R : Z)
    (y : list C) (b b' : buffers C) (x : mview2 C) :
  CodeFreqCython uninit s fft step N M R y b = Ok (x, b') ->
  shape0 x = N /\ shape1 x = R * M /\
  x_aligned b' = execute fft (demodpad b') /\
  step <> 0 /\
  forall n p, 0 <= n < N -> 0 <= p < R * M ->
    exists v,
      get2 x n p = Ok v /\
      get2 (x_aligned b')
           (src_index (shape0 (x_aligned b')) (R * M) p)
           (slice_start (shape1 (x_aligned b')) step +
            src_index (slice_len (shape1 (x_aligned b')) step) N n * step) = Ok v.
Proof.
  intros H. unfold CodeFreqCython in H.
  apply codefreq_Ok in H as (x0 & src & Hx0 & _ & Hxa & Hsrc & Hcopy).
  apply PyArray_EMPTY_Ok in Hx0 as (_ & _ & H0 & H1 & _).
  apply copy_contents_inv in Hcopy as (_ & _ & (Hs0 & Hs1 & _) & Hg).
  unfold slice_step in Hsrc. destruct (Z.eqb_spec step 0) as [|Hstep]; [done |].
  injection Hsrc as <-. simpl in Hg.
  split; [congruence |]. split; [congruence |]. split; [done |]. split; [done |].
  intros n p Hn Hp. rewrite <- H0 in Hn. rewrite <- H1 in Hp.
  destruct (Hg n p Hn Hp) as (v & Hv & Hget). exists v. split; [done |].
  rewrite H0, H1 in Hv. exact Hv.
Qed.

End CodeFreqOutcome.

(** ** The spectral kernel: which outcome, and when *)

Section CodeFreqErrors.

Context {S C : Type} `{Sc : Scalars S C}.

Variable uninit : nat -> C.

Lemma demodulate_Err (s' : list S) (M R : Z) (y : list C) (a : mview2 C) (e : fault) :
  demodulate s' a M R y = Err e -> e = OutOfBounds.
Proof.
  unfold demodulate, prange, xrange. apply for_each_Err. intros p b e' H.
  revert H. apply for_each_Err. intros m c e'' H.
  apply bind_Err_inv in H as [H|(sk & _ & H)]; [by eapply get1_Err |].
  apply bind_Err_inv in H as [H|(ym & _ & H)]; [by eapply get1_Err | by eapply set2_Err].
Qed.

(** The extents of [x_aligned.T[::step]] fit those of the output, each
    being equal to it or 1. *)
Definition relayout_fits (xa : mview2 C) (step N K : Z) : bool :=
  extent_ok (slice_len (shape1 xa) step) N && extent_ok (shape0 xa) K.

(** X11.  The outcomes of a call of the callable of [CodeFreqCython] whose
    demodulation stays inside its arrays (every read of the waveform and of
    the signal, and every store to [demodpad], is inside the array), for
    extents inside the range of [Py_ssize_t] and an executor that leaves a
    well-formed [x_aligned].  A negative extent of the output raises
    [ValueError] at the allocation.  Otherwise, [demodpad] having been
    demodulated, a zero [step] and an [x_aligned] whose strided transpose
    does not fit [N] by [R M] raise [ValueError], at the call and not when
    the callable is built; and in the remaining case the call returns an [N]
    by [R M] array, with the demodulated [demodpad] and the output of the
    executor as the buffers: the re-layout reads no element outside
    [x_aligned]. *)
Theorem codefreq_outcome (s : list S) (fft : FFTW C) (step N M R : Z)
    (y : list C) (b : buffers C) (dp : mview2 C) :
  exact_extents (len s) N M R ->
  demodulate ((fun a => over_sqrt N (np_conj a)) <$> s) (demodpad b) M R y = Ok dp ->
  wf (execute fft dp) ->
  if (N <? 0) || (R * M <? 0) || (step =? 0)
     || negb (relayout_fits (execute fft dp) step N (R * M))
  then CodeFreqCython uninit s fft step N M R y b = Err ValueError
  else exists x,
         CodeFreqCython uninit s fft step N M R y b =
           Ok (x, Buffers dp (execute fft dp)) /\
         shape0 x = N /\ shape1 x = R * M.
Proof.
  intros _ Ed Hwf. unfold CodeFreqCython, codefreq.
  set (s' := (fun a => over_sqrt N (np_conj a)) <$> s) in *.
  rewrite Ed. unfold PyArray_EMPTY.
  destruct ((N <? 0) || (R * M <? 0)) eqn:En; simpl; [done |].
  unfold slice_step. destruct (Z.eqb_spec step 0) as [|Hstep]; simpl; [done |].
  apply orb_false_iff in En as [HN%Z.ltb_ge HK%Z.ltb_ge].
  match goal with |- context [copy_contents ?v ?w] => set (src := v); set (x0 := w) end.
  assert (wf x0) as Hwf0.
  { unfold x0, wf, len. simpl. rewrite length_fmap, length_seq. repeat split; lia. }
  unfold relayout_fits.
  destruct (extent_ok (slice_len (shape1 (execute fft dp)) step) N
            && extent_ok (shape0 (execute fft dp)) (R * M)) eqn:Ex; simpl.
  - apply andb_true_iff in Ex as [Ex0 Ex1].
    destruct (copy_contents_total src x0) as [x' Hx']; [done | done | done | |].
    + intros n p Hn Hp. pose proof Hwf as (Ha0 & Ha1 & _). simpl in Hn, Hp |- *.
      apply get2_wf_ok; [exact Hwf | |].
      * unfold src_index, extent_ok in *.
        destruct (Z.eqb_spec (shape0 (execute fft dp)) (R * M)); [lia |].
        simpl in Ex1. apply Z.eqb_eq in Ex1. lia.
      * apply slice_index; [done | done |].
        unfold src_index, extent_ok in *.
        destruct (Z.eqb_spec (slice_len (shape1 (execute fft dp)) step) N); [lia |].
        simpl in Ex0. apply Z.eqb_eq in Ex0. lia.
    + rewrite Hx'. simpl. exists x'. split; [done |].
      apply copy_contents_inv in Hx' as (_ & _ & (H0 & H1 & _) & _).
      split; [by rewrite <- H0 | by rewrite <- H1].
  - unfold copy_contents. fold src. simpl. by rewrite Ex.
Qed.

End CodeFreqErrors.

(** ** The spectral kernel is linear when the executor is *)

Section CodeFreqLinear.

Context {S C : Type} `{Sc : Scalars S C}.

Hypothesis Crt : ring_theory czero cone cadd cmul csub copp (@eq C).

Add Ring CringL : Crt.

Variable uninit : nat -> C.

Lemma demod_value_axpby (s' : list S) (R : Z) (a c : C) (y1 y2 : list C)
    (p m : Z) (v1 v2 : C) :
  demod_value s' R y1 p m = Ok v1 -> demod_value s' R y2 p m = Ok v2 ->
  demod_value s' R (axpby a y1 c y2) p m = Ok (cadd (cmul a v1) (cmul c v2)).
Proof using Crt.
  unfold demod_value. intros H1 H2.
  apply bind_Ok_inv in H1 as (sk & Hsk & H1). apply bind_Ok_inv in H1 as (u1 & Hu1 & H1).
  rewrite Hsk in H2. simpl in H2. apply bind_Ok_inv in H2 as (u2 & Hu2 & H2).
  rewrite Hsk. simpl. rewrite (get1_axpby a c y1 y2 m u1 u2 Hu1 Hu2). simpl.
  injection H1 as <-. injection H2 as <-. f_equal. ring.
Qed.

(** The demodulation of a combination of two signals, into a buffer that
    holds zero outside the windows, leaves the combination of the two
    demodulated buffers. *)
Lemma demodulate_axpby (s' : list S) (M R : Z) (a c : C) (y1 y2 : list C)
    (dp dp1 dp2 : mview2 C) :
  wf dp -> pad_zero (in_window M R (len s')) dp ->
  demodulate s' dp M R y1 = Ok dp1 -> demodulate s' dp M R y2 = Ok dp2 ->
  demodulate s' dp M R (axpby a y1 c y2) = Ok (axpby2 a dp1 c dp2).
Proof using Crt.
  intros Hwf Hz H1 H2.
  pose proof (proj1 (demodulate_is_ok_iff s' M R y1 dp) (ex_intro _ dp1 H1)) as Hok1.
  pose proof (proj1 (demodulate_is_ok_iff s' M R y2 dp) (ex_intro _ dp2 H2)) as Hok2.
  assert (is_ok (demodulate s' dp M R (axpby a y1 c y2))) as [d Hd].
  { apply demodulate_is_ok_iff. intros p m Hw.
    destruct (Hok1 p m Hw) as [[v1 Hv1] Hs], (Hok2 p m Hw) as [[v2 Hv2] _].
    split; [|done]. eexists. by apply demod_value_axpby. }
  rewrite Hd. f_equal.
  apply demodulate_fills in Hd as [Hsd Hfd], H1 as [Hs1 Hf1], H2 as [Hs2 Hf2].
  apply mview2_ext.
  - by eapply same_shape_wf.
  - destruct Hsd as (A0 & A1 & Al), Hs1 as (B0 & B1 & Bl), Hs2 as (C0 & C1 & Cl).
    unfold same_shape, axpby2, axpby. simpl. rewrite length_zip_with.
    repeat split; try congruence. lia.
  - intros i j Hi Hj. rewrite Hfd.
    assert (shape1 dp1 = shape1 dp2) as E1.
    { destruct Hs1 as (_ & B1 & _), Hs2 as (_ & C1 & _). congruence. }
    destruct (in_window M R (len s') i j) eqn:E.
    + destruct (Hok1 i j E) as [[v1 Hv1] _], (Hok2 i j E) as [[v2 Hv2] _].
      rewrite (demod_value_axpby s' R a c y1 y2 i j v1 v2 Hv1 Hv2). simpl.
      symmetry. apply get2_axpby2; [done | |].
      * by rewrite Hf1, E, Hv1.
      * by rewrite Hf2, E, Hv2.
    + assert (get2 dp i j = Ok czero) as Hz0.
      { destruct Hsd as (A0 & A1 & _). apply Hz; [lia | lia | done]. }
      rewrite Hz0.
      rewrite (get2_axpby2 a c dp1 dp2 i j czero czero E1).
      * f_equal. ring.
      * by rewrite Hf1, E.
      * by rewrite Hf2, E.
Qed.

(** X12.  The callable of [CodeFreqCython] is linear in the signal when its
    executor is, on scratch buffers that hold zero outside the windows:
    if the calls on [y1] and on [y2] return, their aligned buffers have the
    same extents, and the executor maps the combination of the two
    demodulated buffers to the combination of the two aligned ones, then
    the call on [a y1 + c y2] returns the combination of the two outputs,
    and leaves the combinations of the buffers. *)
Theorem codefreq_linear (s : list S) (fft : FFTW C) (step N M R : Z) (a c : C)
    (y1 y2 : list C) (b b1 b2 : buffers C) (x1 x2 : mview2 C) :
  wf (demodpad b) ->
  pad_zero (in_window M R (len s)) (demodpad b) ->
  CodeFreqCython uninit s fft step N M R y1 b = Ok (x1, b1) ->
  CodeFreqCython uninit s fft step N M R y2 b = Ok (x2, b2) ->
  shape0 (x_aligned b1) = shape0 (x_aligned b2) ->
  shape1 (x_aligned b1) = shape1 (x_aligned b2) ->
  execute fft (axpby2 a (demodpad b1) c (demodpad b2)) =
    axpby2 a (x_aligned b1) c (x_aligned b2) ->
  CodeFreqCython uninit s fft step N M R (axpby a y1 c y2) b =
    Ok (axpby2 a x1 c x2,
        Buffers (axpby2 a (demodpad b1) c (demodpad b2))
                (axpby2 a (x_aligned b1) c (x_aligned b2))).
Proof using Crt.
  intros Hwf Hz H1 H2 E0 E1 Hlin. unfold CodeFreqCython in *.
  set (s' := (fun a => over_sqrt N (np_conj a)) <$> s) in *.
  assert (len s' = len s) as HL by apply len_fmap. rewrite <- HL in Hz.
  apply codefreq_Ok in H1 as (x0 & src1 & Hx0 & Hd1 & Hxa1 & Hsl1 & Hc1).
  apply codefreq_Ok in H2 as (x0' & src2 & Hx0' & Hd2 & Hxa2 & Hsl2 & Hc2).
  rewrite Hx0 in Hx0'. injection Hx0' as <-.
  unfold codefreq. rewrite Hx0. simpl.
  rewrite (demodulate_axpby s' M R a c y1 y2 _ _ _ Hwf Hz Hd1 Hd2). simpl.
  rewrite Hlin.
  unfold slice_step in *. destruct (step =? 0) eqn:Es; [done |].
  injection Hsl1 as <-. injection Hsl2 as <-. cbn [bind].
  match goal with |- context [copy_contents ?v x0] => set (src := v) end.
  assert (copy_contents src x0 = Ok (axpby2 a x1 c x2)) as ->; [|done].
  apply PyArray_EMPTY_Ok in Hx0 as (_ & _ & _ & _ & Hwf0).
  apply copy_contents_inv in Hc1 as (F0 & F1 & Hs1 & Hg1).
  apply copy_contents_inv in Hc2 as (G0 & G1 & Hs2 & Hg2).
  simpl in F0, F1, G0, G1, Hg1, Hg2.
  assert (forall n p, 0 <= n < shape0 x0 -> 0 <= p < shape1 x0 ->
            exists v1 v2,
              get2 x1 n p = Ok v1 /\ get2 x2 n p = Ok v2 /\
              vat src (src_index (vshape0 src) (shape0 x0) n)
                      (src_index (vshape1 src) (shape1 x0) p) =
              Ok (cadd (cmul a v1) (cmul c v2))) as Hsrc.
  { intros n p Hn Hp.
    destruct (Hg1 n p Hn Hp) as (v1 & Hv1 & Hx1), (Hg2 n p Hn Hp) as (v2 & Hv2 & Hx2).
    exists v1, v2. split; [done |]. split; [done |].
    rewrite <- E0, <- E1 in Hv2. simpl. by apply get2_axpby2. }
  destruct (copy_contents_total src x0) as [x Hx]; [done | done | done | |].
  { intros n p Hn Hp. destruct (Hsrc n p Hn Hp) as (v1 & v2 & _ & _ & Hv). by eexists. }
  rewrite Hx. f_equal. apply copy_contents_inv in Hx as (_ & _ & Hs & Hg).
  apply mview2_ext.
  - by eapply same_shape_wf.
  - destruct Hs as (A0 & A1 & Al), Hs1 as (B0 & B1 & Bl), Hs2 as (C0 & C1 & Cl).
    unfold same_shape, axpby2, axpby. simpl. rewrite length_zip_with.
    repeat split; try congruence. lia.
  - intros n p Hn Hp. destruct Hs as (A0 & A1 & _).
    rewrite <- A0 in Hn. rewrite <- A1 in Hp.
    destruct (Hg n p Hn Hp) as (v & Hv & ->).
    destruct (Hsrc n p Hn Hp) as (v1 & v2 & Hx1 & Hx2 & Hv').
    rewrite Hv' in Hv. injection Hv as <-. symmetry. apply get2_axpby2; [|done|done].
    destruct Hs1 as (_ & B1 & _), Hs2 as (_ & C1 & _). congruence.
Qed.

End CodeFreqLinear.

(** ** The added properties on concrete arrays *)

Lemma tabulate2_wf {C : Type} (d0 d1 : Z) (f : Z -> Z -> C) :
  0 <= d0 -> 0 <= d1 -> wf (tabulate2 d0 d1 f).
Proof.
  intros H0 H1. unfold wf, tabulate2, len. simpl.
  rewrite length_fmap, length_seqZ. repeat split; nia.
Qed.

Module EdgeExamples.

Import Gauss Examples.

(** X4 on the 2 by 2 basis with [R = 2]: the waveform has two samples and
    the signal two elements, so every access is inside its array. *)
Lemma direct_sum_safe_iff_witness :
  ((1 <= len s2 /\ shape1 dft2 <= len y2) \/ (len s2 = 0 /\ 2 = 1) ->
     reads_in_bounds (np_conj <$> s2) dft2 2 (len y2) /\
     exists x, DirectSumCython junk s2 dft2 2 y2 = Ok x /\
               shape0 x = shape0 dft2 /\ shape1 x = 2 * shape1 dft2) /\
  (~ ((1 <= len s2 /\ shape1 dft2 <= len y2) \/ (len s2 = 0 /\ 2 = 1)) ->
     DirectSumCython junk s2 dft2 2 y2 = Err OutOfBounds /\
     exists p m,
       0 <= p < 2 * shape1 dft2 /\
       mstart p 2 <= m < mstop p 2 (len s2) (shape1 dft2) /\
       ~ (0 <= 2 * m - p < len s2 /\ 0 <= m < len y2)).
Proof. apply (direct_sum_safe_iff junk s2 dft2 2 y2); concrete. Defined.

(** X5: with [R = 2] and [M = 2] the last column, [p = 3], is zero. *)
Lemma trailing_columns_zero_witness :
  exists x, DirectSumCython junk s2 dft2 2 y2 = Ok x /\ get2 x 0 3 = Ok czero.
Proof.
  eexists. split; [vm_compute; reflexivity |].
  eapply (trailing_columns_zero junk s2 dft2 2 y2 _ 0 3); concrete.
Defined.

(** X6 with [R = 0]: an array of two rows and no column. *)
Lemma direct_sum_degenerate_witness :
  (0 * shape1 dft2 < 0 -> DirectSumCython junk s2 dft2 0 y2 = Err ValueError) /\
  (0 * shape1 dft2 = 0 ->
   DirectSumCython junk s2 dft2 0 y2 = Ok (MView2 (shape0 dft2) 0 [])) /\
  (shape0 dft2 = 0 -> 0 <= 0 * shape1 dft2 ->
   DirectSumCython junk s2 dft2 0 y2 = Ok (MView2 0 (0 * shape1 dft2) [])).
Proof. apply (direct_sum_degenerate junk s2 dft2 0 y2); concrete. Defined.


(** X10 for [N = 4], [R = 2], [M = 2] and [step = 1]. *)
Lemma codefreq_relayout_witness :
  exists x b',
    CodeFreqCython junk s2 fft4 1 4 2 2 y2 clean = Ok (x, b') /\
    shape0 x = 4 /\ shape1 x = 2 * 2 /\
    x_aligned b' = execute fft4 (demodpad b') /\ 1 <> 0 /\
    forall n p, 0 <= n < 4 -> 0 <= p < 2 * 2 ->
      exists v,
        get2 x n p = Ok v /\
        get2 (x_aligned b') (src_index (shape0 (x_aligned b')) (2 * 2) p)
          (slice_start (shape1 (x_aligned b')) 1 +
           src_index (slice_len (shape1 (x_aligned b')) 1) 4 n * 1) = Ok v.
Proof.
  do 2 eexists. split; [vm_compute; reflexivity |].
  apply (codefreq_relayout junk s2 fft4 1 4 2 2 y2 clean). vm_compute; reflexivity.
Defined.

(** X11 with [step = 0]: the demodulation has run, and the slice raises
    [ValueError]. *)
Lemma codefreq_outcome_witness :
  CodeFreqCython junk s2 fft4 0 4 2 2 y2 clean = Err ValueError.
Proof.
  eapply (codefreq_outcome junk s2 fft4 0 4 2 2 y2 clean); [concrete | |].
  - vm_compute; reflexivity.
  - apply tabulate2_wf; concrete.
Defined.

(** X12 for the combination [2 y2 + i y2'], from the zero buffers. *)
Lemma codefreq_linear_witness :
  exists x1 b1 x2 b2,
    CodeFreqCython junk s2 fft4 1 4 2 2 y2 clean = Ok (x1, b1) /\
    CodeFreqCython junk s2 fft4 1 4 2 2 y2' clean = Ok (x2, b2) /\
    CodeFreqCython junk s2 fft4 1 4 2 2 (axpby (2, 0) y2 (0, 1) y2') clean =
      Ok (axpby2 (2, 0) x1 (0, 1) x2,
          Buffers (axpby2 (2, 0) (demodpad b1) (0, 1) (demodpad b2))
                  (axpby2 (2, 0) (x_aligned b1) (0, 1) (x_aligned b2))).
Proof.
  do 4 eexists. split; [vm_compute; reflexivity |]. split; [vm_compute; reflexivity |].
  apply (codefreq_linear ring_laws junk s2 fft4 1 4 2 2 (2, 0) (0, 1) y2 y2' clean);
    [concrete | | vm_compute; reflexivity | vm_compute; reflexivity
    | reflexivity | reflexivity | vm_compute; reflexivity].
  intros i j Hi Hj _. apply get2_zeros2; [exact Hi | exact Hj].
Defined.

End EdgeExamples.
